(** * Live billiards match: event log, projections and scorekeeper commands

    A shallow embedding of [api/models.py], [api/utils.py] and the
    scorekeeper consumer of [api/consumers.py].

    The relational store is a record of finite maps keyed by primary key;
    the many-to-many relation between frames and events is the set of event
    ids each frame row carries.  Every ORM call of the source is a function
    on that store; an exception that a helper catches is the [None] or the
    [Failure] the helper returns. *)

From Stdlib Require Import Ascii String.
From stdpp Require Import gmap strings list sorting pretty.

Local Open Scope string_scope.
Local Open Scope list_scope.
Local Open Scope nat_scope.

(** ** Rows of [models.py] *)

(** [balls]: the module-level table of ball descriptors.  The display
    name, which no code path reads, is left out. *)
Record ball := Ball {
  ball_id : string;
  ball_color : string;
  ball_full : option bool;
}.

Definition balls : list ball := [
  Ball "cue" "white" None;
  Ball "1" "yellow" (Some true);
  Ball "2" "blue" (Some true);
  Ball "3" "red" (Some true);
  Ball "4" "purple" (Some true);
  Ball "5" "orange" (Some true);
  Ball "6" "green" (Some true);
  Ball "7" "maroon" (Some true);
  Ball "8" "black" (Some true);
  Ball "9" "yellow" (Some false);
  Ball "10" "blue" (Some false);
  Ball "11" "red" (Some false);
  Ball "12" "purple" (Some false);
  Ball "13" "orange" (Some false);
  Ball "14" "green" (Some false);
  Ball "15" "maroon" (Some false)
].

(** [class Profile]: the linked auth user and the permission flag. *)
Record Profile := mkProfile {
  user : option nat;
  is_biro : bool;
}.

(** [class MatchEvent].  [eventType] is a free string: [choices] is not
    enforced by [objects.create]. *)
Record MatchEvent := mkMatchEvent {
  eventType : string;
  timestamp : nat;
  details : option string;
  turn_number : option nat;
  player : option nat;
  ball_ids : option (list string);
}.

Definition FRAME_START := "start".
Definition FRAME_END := "end".
Definition NEXT_PLAYER := "next_player".
Definition SCORE_UPDATE := "score_update".
Definition BALLS_POTTED := "balls_potted".
Definition FAUL := "faul".
Definition FAUL_AND_NEXT_PLAYER := "faul_and_next_player".
Definition CUE_BALL_LEFT_TABLE := "cue_ball_left_table".
Definition CUE_BALL_GETS_POSITIONED := "cue_ball_gets_positioned".

Definition BALL_GROUP_FULL := "full".
Definition BALL_GROUP_STRIPED := "striped".

(** [class Frame].  [events] is the membership side of the many-to-many
    relation: the ids of the events attached to this frame. *)
Record Frame := mkFrame {
  f_match : nat;
  frame_number : nat;
  events : gset nat;
  winner : option nat;
  player1_ball_group : option string;
  player2_ball_group : option string;
}.

(** [class Match], with the fields the consumer reads or writes. *)
Record Match := mkMatch {
  player1 : nat;
  player2 : nat;
  match_date : option nat;
  frames_to_win : nat;
}.

(** An event together with its primary key. *)
Abbreviation event_row := (nat * MatchEvent)%type.

(** ** Projections of [class Frame] over an ordered event sequence *)

(** A Python [dict] keeps its keys in insertion order, and the result of
    [get_balls_on_table] is read off in that order. *)
Abbreviation pydict V := (list (string * V)).

Fixpoint dict_set {V} (k : string) (v : V) (d : pydict V) : pydict V :=
  match d with
  | [] => [(k, v)]
  | (k', v') :: d' =>
      if decide (k' = k) then (k, v) :: d' else (k', v') :: dict_set k v d'
  end.

(** [{ball['id']: True for ball in balls if ball['id'] != 'cue'}] *)
Definition initial_balls_on_table : pydict bool :=
  foldl (fun d b => if decide (ball_id b = "cue") then d
                    else dict_set (ball_id b) true d) [] balls.

(** Truth value of [event.ball_ids]: [None] and the empty list are falsy. *)
Definition truthy_ball_ids (e : MatchEvent) : list string :=
  match ball_ids e with
  | Some l => l
  | None => []
  end.

(** Body of the outer [for] of [get_balls_on_table]. *)
Definition pot_event (d : pydict bool) (e : MatchEvent) : pydict bool :=
  if decide (eventType e = BALLS_POTTED)
  then foldl (fun d ball_id => dict_set ball_id false d) d (truthy_ball_ids e)
  else d.

(** [[ball_id for ball_id, on_table in balls_on_table.items() if on_table]] *)
Definition on_table_keys (d : pydict bool) : list string :=
  (filter (fun kv => kv.2 = true) d).*1.

(** [Frame.get_balls_on_table], on the events already ordered by timestamp. *)
Definition balls_on_table_of (evs : list MatchEvent) : list string :=
  on_table_keys (foldl pot_event initial_balls_on_table evs).

(** Loop state of [return_events_as_turns]: [(turns, current_turn)]. *)
Definition turn_step (st : list (list MatchEvent) * list MatchEvent)
    (event : MatchEvent) : list (list MatchEvent) * list MatchEvent :=
  let st' :=
    if decide (eventType event = NEXT_PLAYER) then
      match st.2 with
      | [] => st
      | _ :: _ => (st.1 ++ [st.2], [])
      end
    else st in
  (st'.1, st'.2 ++ [event]).

(** [Frame.return_events_as_turns], on the events already ordered by
    timestamp. *)
Definition turns_of (evs : list MatchEvent) : list (list MatchEvent) :=
  let st := foldl turn_step ([], []) evs in
  match st.2 with
  | [] => st.1
  | _ :: _ => st.1 ++ [st.2]
  end.

(** ** The store *)

(** The tables the consumer touches.  Primary keys are assigned from a
    per-table counter, as an auto-increment column does. *)
Record DB := mkDB {
  User_objects : gset nat;
  Profile_objects : gmap nat Profile;
  Match_objects : gmap nat Match;
  Frame_objects : gmap nat Frame;
  MatchEvent_objects : gmap nat MatchEvent;
  next_frame_id : nat;
  next_event_id : nat;
}.

Definition with_matches (t : gmap nat Match) (db : DB) : DB :=
  mkDB (User_objects db) (Profile_objects db) t (Frame_objects db)
       (MatchEvent_objects db) (next_frame_id db) (next_event_id db).

Definition with_frames (t : gmap nat Frame) (db : DB) : DB :=
  mkDB (User_objects db) (Profile_objects db) (Match_objects db) t
       (MatchEvent_objects db) (next_frame_id db) (next_event_id db).

Definition with_events (t : gmap nat MatchEvent) (db : DB) : DB :=
  mkDB (User_objects db) (Profile_objects db) (Match_objects db)
       (Frame_objects db) t (next_frame_id db) (next_event_id db).

Definition set_events (s : gset nat) (f : Frame) : Frame :=
  mkFrame (f_match f) (frame_number f) s (winner f)
          (player1_ball_group f) (player2_ball_group f).

Definition set_winner (w : option nat) (f : Frame) : Frame :=
  mkFrame (f_match f) (frame_number f) (events f) w
          (player1_ball_group f) (player2_ball_group f).

Definition set_player1_ball_group (g : option string) (f : Frame) : Frame :=
  mkFrame (f_match f) (frame_number f) (events f) (winner f)
          g (player2_ball_group f).

Definition set_player2_ball_group (g : option string) (f : Frame) : Frame :=
  mkFrame (f_match f) (frame_number f) (events f) (winner f)
          (player1_ball_group f) g.

(** Truth value of a JSON id: [None] (absent or null) and [0] are falsy. *)
Definition truthy_id (i : option nat) : option nat :=
  match i with
  | Some (S n) => Some (S n)
  | _ => None
  end.

(** [Model.objects.get(id=i)]; [None] stands for [DoesNotExist], which is
    also what a null id gives. *)
Definition objects_get {A} (t : gmap nat A) (i : option nat) : option A :=
  i ≫= (t !!.).

(** [Frame.objects.get(id=frame_id, match_id=self.match_id)] *)
Definition Frame_get_in_match (db : DB) (match_id : nat)
    (frame_id : option nat) : option Frame :=
  f ← objects_get (Frame_objects db) frame_id;
  if decide (f_match f = match_id) then Some f else None.

(** [match.match_frames]: the frames whose foreign key is the match. *)
Definition match_frames (db : DB) (match_id : nat) : gmap nat Frame :=
  filter (fun kf => f_match kf.2 = match_id) (Frame_objects db).

(** [match.match_frames.filter(winner=p).count()] *)
Definition wins (db : DB) (match_id p : nat) : nat :=
  size (filter (fun kf : nat * Frame => winner kf.2 = Some p)
               (match_frames db match_id)).

(** [frame.events.all()]: the attached events, joined with their rows. *)
Definition frame_events (db : DB) (f : Frame) : list event_row :=
  omap (fun i => (i,.) <$> MatchEvent_objects db !! i) (elements (events f)).

Definition by_timestamp (a b : event_row) : Prop :=
  timestamp a.2 ≤ timestamp b.2.

Definition by_timestamp_desc (a b : event_row) : Prop :=
  timestamp b.2 ≤ timestamp a.2.

Instance by_timestamp_dec : RelDecision by_timestamp :=
  fun a b => decide (timestamp a.2 ≤ timestamp b.2).

Instance by_timestamp_desc_dec : RelDecision by_timestamp_desc :=
  fun a b => decide (timestamp b.2 ≤ timestamp a.2).

(** [frame.events.all().order_by('timestamp')] *)
Definition events_by_timestamp (db : DB) (f : Frame) : list event_row :=
  merge_sort by_timestamp (frame_events db f).

(** [frame.events.order_by('-timestamp')] *)
Definition events_by_timestamp_desc (db : DB) (f : Frame) : list event_row :=
  merge_sort by_timestamp_desc (frame_events db f).

(** [Frame.get_balls_on_table] *)
Definition get_balls_on_table (db : DB) (self : Frame) : list string :=
  balls_on_table_of ((events_by_timestamp db self).*2).

(** [Frame.return_events_as_turns] *)
Definition return_events_as_turns (db : DB) (self : Frame)
    : list (list MatchEvent) :=
  turns_of ((events_by_timestamp db self).*2).

(** [frame.events.add(event)] *)
Definition events_add (frame_id event_id : nat) (db : DB) : DB :=
  with_frames
    (alter (fun f => set_events ({[event_id]} ∪ events f) f) frame_id
           (Frame_objects db)) db.

(** [frame.events.remove(event)] *)
Definition events_remove (frame_id event_id : nat) (db : DB) : DB :=
  with_frames
    (alter (fun f => set_events (events f ∖ {[event_id]}) f) frame_id
           (Frame_objects db)) db.

(** [event.delete()]: the row goes, and with it every membership row that
    refers to it, in whichever frame. *)
Definition MatchEvent_delete (event_id : nat) (db : DB) : DB :=
  with_events (delete event_id (MatchEvent_objects db))
    (with_frames
       ((fun f => set_events (events f ∖ {[event_id]}) f) <$> Frame_objects db)
       db).

(** [frame.save()]: writes the columns of the in-memory object; the
    membership set is not a column and stays as the store has it. *)
Definition Frame_save (frame_id : nat) (obj : Frame) (db : DB) : DB :=
  with_frames
    (alter (fun row => set_events (events row) obj) frame_id (Frame_objects db))
    db.

(** ** Serializers and payloads *)

(** [FrameSerializer(frame).data]; the nested [events] are read from the
    store when the data is rendered. *)
Record FrameData := mkFrameData {
  fd_id : nat;
  fd_frame_number : nat;
  fd_events : list event_row;
  fd_winner : option nat;
  fd_player1_ball_group : option string;
  fd_player2_ball_group : option string;
}.

Definition FrameSerializer (db : DB) (frame_id : nat) (obj : Frame) : FrameData :=
  mkFrameData frame_id (frame_number obj)
    (default [] (frame_events db <$> Frame_objects db !! frame_id))
    (winner obj) (player1_ball_group obj) (player2_ball_group obj).

(** [MatchSerializer(match).data] *)
Record MatchData := mkMatchData {
  md_id : nat;
  md_match : Match;
  md_match_frames : list FrameData;
}.

Definition MatchSerializer (db : DB) (match_id : nat) (obj : Match) : MatchData :=
  mkMatchData match_id obj
    ((fun kf => FrameSerializer db kf.1 kf.2) <$>
       map_to_list (match_frames db match_id)).

(** The [data] dictionaries the mutation helpers build. *)
Record EventRemoved := mkEventRemoved {
  er_event_id : option nat;
  er_frame_ids : list nat;
}.

Record EventUndone := mkEventUndone {
  eu_event_id : nat;
  eu_frame_id : option nat;
  eu_event_type : string;
}.

Record EventsRemoved := mkEventsRemoved {
  es_frame_id : option nat;
  es_removed_event_ids : list nat;
  es_count : nat;
}.

Record FrameEventsCleared := mkFrameEventsCleared {
  fc_frame_id : option nat;
  fc_cleared_event_ids : list nat;
  fc_count : nat;
}.

(** [{'success': True, 'data': ...}] or [{'success': False, 'message': ...}] *)
Inductive result (A : Type) : Type :=
  | Success (data : A)
  | Failure (message : string).
Arguments Success {A} data.
Arguments Failure {A} message.

(** ** Inbound fields *)

(** [event_data]; [None] is an absent key. *)
Record EventFields := mkEventFields {
  ef_eventType : option string;
  ef_details : option string;
  ef_turn_number : option nat;
  ef_player_id : option nat;
  ef_ball_ids : option (list string);
  ef_frame_id : option nat;
}.

Definition no_event_fields : EventFields :=
  mkEventFields None None None None None None.

(** [updates] of [update_match]: the outer option is the presence of the
    key. *)
Record MatchUpdates := mkMatchUpdates {
  mu_match_date : option (option nat);
  mu_frames_to_win : option nat;
}.

(** ** Database helpers of [BiroMatchAdminConsumer] *)

(** [MatchEvent.objects.create(...)]: the insert is refused when the event
    type is null or the player does not exist. *)
Definition MatchEvent_create (db : DB) (now : nat) (event_data : EventFields)
    : option (DB * event_row) :=
  ty ← ef_eventType event_data;
  if decide (is_Some (ef_player_id event_data ≫= (Profile_objects db !!.))
             ∨ ef_player_id event_data = None)
  then
    let event := mkMatchEvent ty now
                   (Some (default "" (ef_details event_data)))
                   (ef_turn_number event_data)
                   (ef_player_id event_data)
                   (Some (default [] (ef_ball_ids event_data))) in
    let id := next_event_id db in
    Some (mkDB (User_objects db) (Profile_objects db) (Match_objects db)
               (Frame_objects db) (<[id := event]> (MatchEvent_objects db))
               (next_frame_id db) (S id),
          (id, event))
  else None.

Definition create_match_event (db : DB) (now : nat) (event_data : EventFields)
    : DB * option event_row :=
  match MatchEvent_create db now event_data with
  | None => (db, None)
  | Some (db1, event) =>
      match truthy_id (ef_frame_id event_data) with
      | None => (db1, Some event)
      | Some frame_id =>
          match Frame_objects db1 !! frame_id with
          | None => (db1, None)
          | Some _ => (events_add frame_id event.1 db1, Some event)
          end
      end
  end.

(** The three ways out of the best-of-N check of [create_frame]: the first
    early return, the second early return, and falling through. *)
Inductive gate : Type :=
  | already_won
  | ended_in_draw
  | may_create.

Definition frame_gate (player1_wins player2_wins total_frames : nat) : gate :=
  let frames_needed_to_win := (total_frames + 1) `div` 2 in
  if decide (frames_needed_to_win ≤ player1_wins
             ∨ frames_needed_to_win ≤ player2_wins)
  then already_won
  else if decide (total_frames `mod` 2 = 0
                  ∧ total_frames ≤ player1_wins + player2_wins)
  then ended_in_draw
  else may_create.

(** [Frame.objects.create(match=match, frame_number=n)] *)
Definition Frame_create (db : DB) (match_id n : nat) : DB * nat :=
  let id := next_frame_id db in
  (mkDB (User_objects db) (Profile_objects db) (Match_objects db)
        (<[id := mkFrame match_id n ∅ None None None]> (Frame_objects db))
        (MatchEvent_objects db) (S id) (next_event_id db),
   id).

(** [frame_data] carries at most a [frame_number]. *)
Definition create_frame (db : DB) (match_id : nat) (frame_number : option nat)
    : DB * option FrameData :=
  match Match_objects db !! match_id with
  | None => (db, None)
  | Some match_ =>
      let player1_wins := wins db match_id (player1 match_) in
      let player2_wins := wins db match_id (player2 match_) in
      let total_frames := frames_to_win match_ in
      match frame_gate player1_wins player2_wins total_frames with
      | already_won => (db, None)
      | ended_in_draw => (db, None)
      | may_create =>
          let n := default (size (match_frames db match_id) + 1) frame_number in
          let '(db1, id) := Frame_create db match_id n in
          (db1, FrameSerializer db1 id <$> Frame_objects db1 !! id)
      end
  end.

Definition end_frame (db : DB) (frame_id winner_id : option nat)
    : DB * option FrameData :=
  match frame_id ≫= (fun i => (i,.) <$> Frame_objects db !! i) with
  | None => (db, None)
  | Some (id, frame) =>
      match truthy_id winner_id with
      | None => (db, Some (FrameSerializer db id frame))
      | Some w =>
          match Profile_objects db !! w with
          | None => (db, None)
          | Some _ =>
              let frame := set_winner (Some w) frame in
              let db1 := Frame_save id frame db in
              (db1, Some (FrameSerializer db1 id frame))
          end
      end
  end.

Definition update_match (db : DB) (match_id : nat) (updates : MatchUpdates)
    : DB * option MatchData :=
  match Match_objects db !! match_id with
  | None => (db, None)
  | Some match_ =>
      let match_ :=
        match mu_match_date updates with
        | Some d => mkMatch (player1 match_) (player2 match_) d
                            (frames_to_win match_)
        | None => match_
        end in
      let match_ :=
        match mu_frames_to_win updates with
        | Some n => mkMatch (player1 match_) (player2 match_)
                            (match_date match_) n
        | None => match_
        end in
      let db1 := with_matches (<[match_id := match_]> (Match_objects db)) db in
      (db1, Some (MatchSerializer db1 match_id match_))
  end.

(** [Frame.objects.filter(match_id=self.match_id, events=event)] *)
Definition frames_holding (db : DB) (match_id event_id : nat)
    : list (nat * Frame) :=
  map_to_list
    (filter (fun kf : nat * Frame =>
               f_match kf.2 = match_id ∧ event_id ∈ events kf.2)
            (Frame_objects db)).

Definition remove_match_event (db : DB) (match_id : nat)
    (event_id : option nat) : DB * result EventRemoved :=
  match event_id ≫= (fun i => (i,.) <$> MatchEvent_objects db !! i) with
  | None => (db, Failure "Event not found")
  | Some (id, event) =>
      let frames := frames_holding db match_id id in
      match frames with
      | [] => (db, Failure "Event not found in this match")
      | _ :: _ =>
          let event_data := mkEventRemoved event_id (frames.*1) in
          let db1 := foldl (fun db frame => events_remove frame.1 id db)
                           db frames in
          (MatchEvent_delete id db1, Success event_data)
      end
  end.

(** A frame found by id and match, with its id. *)
Definition get_frame (db : DB) (match_id : nat) (frame_id : option nat)
    : option (nat * Frame) :=
  id ← frame_id;
  f ← Frame_get_in_match db match_id frame_id;
  Some (id, f).

Definition undo_last_event (db : DB) (match_id : nat)
    (frame_id : option nat) : DB * result EventUndone :=
  match get_frame db match_id frame_id with
  | None => (db, Failure "Frame not found")
  | Some (id, frame) =>
      match head (events_by_timestamp_desc db frame) with
      | None => (db, Failure "No events to undo in this frame")
      | Some last_event =>
          let event_data :=
            mkEventUndone last_event.1 frame_id (eventType last_event.2) in
          (MatchEvent_delete last_event.1 (events_remove id last_event.1 db),
           Success event_data)
      end
  end.

(** [frame.events.filter(id=event_id).exists()], asked of the store. *)
Definition frame_has_event (db : DB) (frame_id event_id : nat) : bool :=
  match Frame_objects db !! frame_id with
  | Some f => bool_decide (event_id ∈ (frame_events db f).*1)
  | None => false
  end.

(** Body of the loop of [remove_events_from_frame], on [(db, removed)]. *)
Definition remove_one (frame_id : nat) (st : DB * list nat) (event_id : nat)
    : DB * list nat :=
  match MatchEvent_objects st.1 !! event_id with
  | None => st
  | Some _ =>
      if frame_has_event st.1 frame_id event_id
      then (MatchEvent_delete event_id (events_remove frame_id event_id st.1),
            st.2 ++ [event_id])
      else st
  end.

Definition remove_events_from_frame (db : DB) (match_id : nat)
    (frame_id : option nat) (event_ids : list nat)
    : DB * result EventsRemoved :=
  match get_frame db match_id frame_id with
  | None => (db, Failure "Frame not found")
  | Some (id, frame) =>
      let st := foldl (remove_one id) (db, []) event_ids in
      (st.1, Success (mkEventsRemoved frame_id st.2 (length st.2)))
  end.

Definition clear_frame_events (db : DB) (match_id : nat)
    (frame_id : option nat) : DB * result FrameEventsCleared :=
  match get_frame db match_id frame_id with
  | None => (db, Failure "Frame not found")
  | Some (id, frame) =>
      let event_ids := (frame_events db frame).*1 in
      let db1 :=
        foldl (fun db event =>
                 MatchEvent_delete event.1 (events_remove id event.1 db))
              db (frame_events db frame) in
      (db1, Success (mkFrameEventsCleared frame_id event_ids
                       (length event_ids)))
  end.

(** [g and g in valid_groups] *)
Definition valid_group (g : option string) : bool :=
  match g with
  | Some s =>
      bool_decide (s ≠ "")
      && bool_decide (s ∈ [BALL_GROUP_FULL; BALL_GROUP_STRIPED])
  | None => false
  end.

Definition set_frame_ball_groups (db : DB) (match_id : nat)
    (frame_id : option nat) (player1_group player2_group : option string)
    : DB * option FrameData :=
  match get_frame db match_id frame_id with
  | None => (db, None)
  | Some (id, frame) =>
      let frame := if valid_group player1_group
                   then set_player1_ball_group player1_group frame
                   else frame in
      let frame := if valid_group player2_group
                   then set_player2_ball_group player2_group frame
                   else frame in
      let db1 := Frame_save id frame db in
      (db1, Some (FrameSerializer db1 id frame))
  end.

(** ** Credentials ([utils.py]) *)

Section credentials.
(** [AccessToken(token_string)['user_id']] of the JWT library: the user
    id claimed by a token that verifies, [None] when it raises. *)
Variable AccessToken : string -> option nat.

Definition get_user_from_token (db : DB) (token_string : string)
    : option nat :=
  user_id ← AccessToken token_string;
  if decide (user_id ∈ User_objects db) then Some user_id else None.

(** [Profile.objects.get(user=user)]; the one-to-one column admits at
    most one such row. *)
Definition Profile_get_by_user (db : DB) (user_id : nat)
    : option (nat * Profile) :=
  snd <$> list_find (fun kp : nat * Profile => user kp.2 = Some user_id)
                    (map_to_list (Profile_objects db)).

Definition get_profile_from_token (db : DB) (token_string : string)
    : option (nat * Profile) :=
  match get_user_from_token db token_string with
  | Some user => Profile_get_by_user db user
  | None => None
  end.
End credentials.

(** ** The scorekeeper session ([BiroMatchAdminConsumer]) *)

(** What travels in the [data] slot of an outbound message. *)
Inductive payload : Type :=
  | match_data (d : MatchData)
  | frame_data (d : FrameData)
  | event_data (d : event_row)
  | event_removed_data (d : EventRemoved)
  | event_undone_data (d : EventUndone)
  | events_removed_data (d : EventsRemoved)
  | frame_events_cleared_data (d : FrameEventsCleared).

(** The JSON object handed to [self.send]; [None] is an absent key. *)
Record reply := mkReply {
  r_type : string;
  r_success : option bool;
  r_data : option payload;
  r_message : option string;
}.

(** The outbound calls of a handler, in the order they are made. *)
Inductive effect : Type :=
  | group_send (group : string) (type : string) (data : payload)
  | send (text_data : reply).

Definition ok_reply (type : string) (data : payload) : reply :=
  mkReply type (Some true) (Some data) None.

Definition error_reply (message : string) : reply :=
  mkReply "error" None None (Some message).

(** [f'match_{self.match_id}'] and [f'biro_match_{self.match_id}'] *)
Definition spectator_room (match_id : nat) : string :=
  "match_" +:+ pretty match_id.

Definition room_group_name (match_id : nat) : string :=
  "biro_match_" +:+ pretty match_id.

(** [str.split(sep)] for a one-character separator. *)
Fixpoint split (sep : ascii) (s : string) : list string :=
  match s with
  | EmptyString => [""]
  | String a s' =>
      if decide (a = sep) then "" :: split sep s'
      else match split sep s' with
           | [] => [String a ""]
           | p :: ps => String a p :: ps
           end
  end.

(** The token loop of [connect]: the first parameter that starts with
    [token=], cut at its first two [=] signs. *)
Definition token_of (query_string : string) : option string :=
  param ← snd <$> list_find (fun p => String.prefix "token=" p = true)
                            (split "&"%char query_string);
  split "="%char param !! 1.

(** How [connect] ends: the connection is closed with a code, after the
    diagnostic of the failed check is printed, or it is accepted, the
    channel joins the room and the current match state, if any, is sent. *)
Inductive connection : Type :=
  | closed (diagnostic : string) (code : nat)
  | accepted (profile : nat * Profile) (group : string)
             (first : option reply).

Section connect.
Variable AccessToken : string -> option nat.

Definition get_match_data (db : DB) (match_id : nat) : option MatchData :=
  MatchSerializer db match_id <$> Match_objects db !! match_id.

Definition connect (db : DB) (match_id : nat) (query_string : string)
    : connection :=
  match token_of query_string with
  | None | Some "" =>
      closed "[BiroMatchAdminConsumer] ERROR: No token provided in query string"
             4001
  | Some token =>
      match get_profile_from_token AccessToken db token with
      | None =>
          closed "[BiroMatchAdminConsumer] ERROR: Invalid token or profile not found"
                 4003
      | Some profile =>
          if is_biro profile.2
          then accepted profile (room_group_name match_id)
                 ((fun d => mkReply "match_state" None (Some (match_data d))
                                    None)
                    <$> get_match_data db match_id)
          else closed ("[BiroMatchAdminConsumer] ERROR: User "
                         +:+ pretty profile.1 +:+ " is not a biro")
                      4003
      end
  end.
End connect.

(** The fields of an inbound JSON object, each [None] when absent. *)
Record Fields := mkFields {
  msg_event_data : option EventFields;
  msg_frame_number : option nat;
  msg_frame_id : option nat;
  msg_winner_id : option nat;
  msg_updates : option MatchUpdates;
  msg_event_id : option nat;
  msg_event_ids : option (list nat);
  msg_player1_ball_group : option string;
  msg_player2_ball_group : option string;
}.

(** [text_data] as [receive] sees it: text that [json.loads] rejects, a
    JSON value without [.get] (the string is what [str(e)] gives), or an
    object with its [action]. *)
Inductive inbound : Type :=
  | not_json
  | not_an_object (error : string)
  | object (action : option string) (data : Fields).

(** The branch of [receive] taken for a helper that returns a [result];
    [fallback] is the default of [result.get('message', ...)], which is
    never needed since every failure carries a message. *)
Definition answer {A} (match_id : nat) (type : string)
    (wrap : A -> payload) (extra : option string) (fallback : string)
    (r : result A) : list effect :=
  match r with
  | Success d =>
      [group_send (spectator_room match_id) type (wrap d);
       send (mkReply type (Some true) (Some (wrap d)) extra)]
  | Failure m => [send (error_reply m)]
  end.

Definition receive (db : DB) (now match_id : nat) (text_data : inbound)
    : DB * list effect :=
  match text_data with
  | not_json => (db, [send (error_reply "Invalid JSON")])
  | not_an_object e => (db, [send (error_reply e)])
  | object action data =>
      let room := spectator_room match_id in
      if decide (action = Some "create_event") then
        let r := create_match_event db now
                   (default no_event_fields (msg_event_data data)) in
        (r.1, match r.2 with
              | Some event =>
                  [group_send room "event_created" (event_data event);
                   send (ok_reply "event_created" (event_data event))]
              | None => []
              end)
      else if decide (action = Some "start_frame") then
        let r := create_frame db match_id (msg_frame_number data) in
        (r.1, match r.2 with
              | Some frame => [group_send room "frame_update" (frame_data frame)]
              | None => []
              end)
      else if decide (action = Some "end_frame") then
        let r := end_frame db (msg_frame_id data) (msg_winner_id data) in
        (r.1, match r.2 with
              | Some frame => [group_send room "frame_update" (frame_data frame)]
              | None => []
              end)
      else if decide (action = Some "update_match") then
        let r := update_match db match_id
                   (default (mkMatchUpdates None None) (msg_updates data)) in
        (r.1, match r.2 with
              | Some d => [group_send room "match_update" (match_data d)]
              | None => []
              end)
      else if decide (action = Some "remove_event") then
        let r := remove_match_event db match_id (msg_event_id data) in
        (r.1, answer match_id "event_removed" event_removed_data None
                     "Failed to remove event" r.2)
      else if decide (action = Some "undo_last_event") then
        let r := undo_last_event db match_id (msg_frame_id data) in
        (r.1, answer match_id "event_removed" event_undone_data
                     (Some "Last event undone")
                     "Failed to undo last event" r.2)
      else if decide (action = Some "remove_events_from_frame") then
        let r := remove_events_from_frame db match_id (msg_frame_id data)
                   (default [] (msg_event_ids data)) in
        (r.1, answer match_id "events_removed" events_removed_data None
                     "Failed to remove events" r.2)
      else if decide (action = Some "clear_frame_events") then
        let r := clear_frame_events db match_id (msg_frame_id data) in
        (r.1, answer match_id "frame_events_cleared"
                     frame_events_cleared_data None
                     "Failed to clear frame events" r.2)
      else if decide (action = Some "set_ball_groups") then
        let r := set_frame_ball_groups db match_id (msg_frame_id data)
                   (msg_player1_ball_group data)
                   (msg_player2_ball_group data) in
        (r.1, match r.2 with
              | Some frame =>
                  [group_send room "frame_update" (frame_data frame);
                   send (ok_reply "ball_groups_set" (frame_data frame))]
              | None => [send (error_reply "Failed to set ball groups")]
              end)
      else (db, [])
  end.

(** The messages a handler sends back on the session's own socket. *)
Definition acks (out : list effect) : list reply :=
  omap (fun e => match e with send r => Some r | _ => None end) out.

(** ** Predicates used in the statements below *)

(** A turn that a [next_player] event opens. *)
Definition opens_turn (turn : list MatchEvent) : Prop :=
  exists e, head turn = Some e /\ eventType e = NEXT_PLAYER.

(** A turn is not empty and holds no [next_player] event after its first
    position. *)
Definition closed_turn (turn : list MatchEvent) : Prop :=
  turn <> [] /\ Forall (fun e => eventType e <> NEXT_PLAYER) (tail turn).

(** What the loop of [return_events_as_turns] maintains once it has
    consumed [evs]. *)
Record turns_inv (evs : list MatchEvent)
    (st : list (list MatchEvent) * list MatchEvent) : Prop := {
  inv_concat : concat st.1 ++ st.2 = evs;
  inv_closed : Forall closed_turn st.1;
  inv_current : Forall (fun e => eventType e <> NEXT_PLAYER) (tail st.2);
  inv_opens : Forall opens_turn (tail st.1);
  inv_opened : st.1 <> [] -> opens_turn st.2;
}.

(** The ball ids every [balls_potted] event of [evs] names. *)
Definition potted (evs : list MatchEvent) : list string :=
  evs ≫= (fun e => if decide (eventType e = BALLS_POTTED)
                   then truthy_ball_ids e else []).

(** ** A small store for the examples

    Two profiles (1 is a scorekeeper, 2 is not), a best-of-5 match 1 that
    player 1 leads 1-0 and a best-of-4 match 2 with one open frame; frame 1
    holds a [balls_potted] event followed by a [next_player] event. *)
Definition sample_db : DB :=
  mkDB {[1; 2]}
    {[1 := mkProfile (Some 1) true; 2 := mkProfile (Some 2) false]}
    {[1 := mkMatch 1 2 None 5; 2 := mkMatch 1 2 None 4]}
    {[1 := mkFrame 1 1 {[1; 2]} (Some 1) None None;
      2 := mkFrame 2 1 ∅ None None None]}
    {[1 := mkMatchEvent "balls_potted" 10 (Some "") None None
             (Some ["1"; "9"]);
      2 := mkMatchEvent "next_player" 11 (Some "") None None (Some [])]}
    3 3.

(** A store with [k] frames won by player 1 and [k] by player 2 in
    match 1, whose [frames_to_win] is [n]. *)
Definition tied_db (n : nat) : DB :=
  mkDB ∅ {[1 := mkProfile None false; 2 := mkProfile None false]}
    {[1 := mkMatch 1 2 None n]}
    {[1 := mkFrame 1 1 ∅ (Some 1) None None;
      2 := mkFrame 1 2 ∅ (Some 2) None None;
      3 := mkFrame 1 3 ∅ (Some 1) None None;
      4 := mkFrame 1 4 ∅ (Some 2) None None]}
    ∅ 5 1.

(** Some frame of the match holds the event id in its membership set. *)
Definition held_in_match (db : DB) (match_id event_id : nat) : Prop :=
  exists frame_id f,
    Frame_objects db !! frame_id = Some f
    /\ f_match f = match_id /\ event_id ∈ events f.

(** The two messages with which [remove_match_event] says not found. *)
Definition event_not_found (message : string) : Prop :=
  message = "Event not found" \/ message = "Event not found in this match".

(** The value a ball-group field holds after [set_frame_ball_groups] was
    handed [g] for it. *)
Definition updated_group (g old : option string) : option string :=
  if valid_group g then g else old.

(** Referential integrity of the membership relation: a frame only holds
    ids the event counter has already handed out. *)
Definition events_known (db : DB) : Prop :=
  map_Forall (fun _ f => set_Forall (fun i => i < next_event_id db) (events f))
             (Frame_objects db).

(** An inbound object that carries nothing but [event_data]. *)
Definition only_event_data (e : EventFields) : Fields :=
  mkFields (Some e) None None None None None None None None.

(** An inbound object that carries [frame_id] and [winner_id]. *)
Definition only_frame_and_winner (frame_id winner_id : option nat) : Fields :=
  mkFields None None frame_id winner_id None None None None None.




(** A token verifier for the examples: ["t1"] is user 1's token, ["t2"]
    user 2's, ["t9"] names a user that does not exist. *)
Definition sample_tokens (token : string) : option nat :=
  if decide (token = "t1") then Some 1
  else if decide (token = "t2") then Some 2
  else if decide (token = "t9") then Some 9
  else None.

(** An inbound object with no field at all. *)
Definition no_fields : Fields :=
  mkFields None None None None None None None None None.

(** Frame 1 of [sample_db]. *)
Definition sample_frame : Frame := mkFrame 1 1 {[1; 2]} (Some 1) None None.

(** ** Further predicates and helpers for the statements below *)

(** The store once the events of [ids] are deleted, one after the other. *)
Definition delete_all (ids : list nat) (db : DB) : DB :=
  foldl (fun db i => MatchEvent_delete i db) db ids.

(** The ids of the events attached to a frame. *)
Definition attached_ids (db : DB) (f : Frame) : list nat :=
  (frame_events db f).*1.

(** Every frame row has an id the frame counter has already handed out. *)
Definition frames_known (db : DB) : Prop :=
  map_Forall (fun i (_ : Frame) => i < next_frame_id db) (Frame_objects db).

(** Every event row has an id the event counter has already handed out. *)
Definition rows_known (db : DB) : Prop :=
  map_Forall (fun i (_ : MatchEvent) => i < next_event_id db)
             (MatchEvent_objects db).

(** The three integrity conditions together: the next primary keys are
    fresh, and no frame holds an id of an event yet to come. *)
Definition store_ok (db : DB) : Prop :=
  events_known db /\ frames_known db /\ rows_known db.

(** [db'] has the rows of [db], fewer or more, new ones only under ids
    that the counters have handed out since. *)
Record extends (db db' : DB) : Prop := {
  ext_next_frame : next_frame_id db <= next_frame_id db';
  ext_next_event : next_event_id db <= next_event_id db';
  ext_frames : forall i, is_Some (Frame_objects db' !! i) ->
               is_Some (Frame_objects db !! i)
               \/ next_frame_id db <= i < next_frame_id db';
  ext_rows : forall i, is_Some (MatchEvent_objects db' !! i) ->
             is_Some (MatchEvent_objects db !! i)
             \/ next_event_id db <= i < next_event_id db';
}.

(** A best-of-5 match in which each player has won two frames and frame 5
    is open. *)
Definition deciding_db : DB :=
  mkDB ∅ {[1 := mkProfile None false; 2 := mkProfile None false]}
    {[1 := mkMatch 1 2 None 5]}
    {[1 := mkFrame 1 1 ∅ (Some 1) None None;
      2 := mkFrame 1 2 ∅ (Some 2) None None;
      3 := mkFrame 1 3 ∅ (Some 1) None None;
      4 := mkFrame 1 4 ∅ (Some 2) None None;
      5 := mkFrame 1 5 ∅ None None None]}
    ∅ 6 1.

(** A [balls_potted] event for frame 1 of [sample_db], potting ball 3. *)
Definition sample_pot : EventFields :=
  mkEventFields (Some "balls_potted") None None (Some 1) (Some ["3"]) (Some 1).

(** The row that [sample_pot] becomes when created at time 20 in
    [sample_db]. *)
Definition sample_pot_event : event_row :=
  (3, mkMatchEvent "balls_potted" 20 (Some "") None (Some 1) (Some ["3"])).

(** ** The spectator session ([LiveMatchConsumer]) *)

(** [LiveMatchConsumer.connect]: no check at all; the channel joins the
    room of the match, the connection is accepted and the current match
    state, if the match exists, is sent. *)
Definition LiveMatchConsumer_connect (db : DB) (match_id : nat)
    : string * option reply :=
  (spectator_room match_id,
   (fun d => mkReply "match_state" None (Some (match_data d)) None)
     <$> get_match_data db match_id).

(** ** Strings *)

(** [sep.join(l)] for a one-character separator. *)
Fixpoint join (sep : ascii) (l : list string) : string :=
  match l with
  | [] => ""
  | [s] => s
  | s :: l' => s +:+ String sep (join sep l')
  end.

(** [c in s] *)
Fixpoint has_char (c : ascii) (s : string) : bool :=
  match s with
  | EmptyString => false
  | String a s' => bool_decide (a = c) || has_char c s'
  end.

(** ** HTTP views ([views.py]) and their decorators ([utils.py]) *)

(** The body of a response. *)
Inductive http_body : Type :=
  | error_body (error : string)
  | error_detail_body (error : string)
  | decided_body (error : string) (player1_wins player2_wins frames_to_win : nat)
  | message_body (message : string)
  | frame_body (d : FrameData)
  | frames_body (l : list FrameData)
  | event_body (d : event_row)
  | empty_body
  | unhandled.

(** A response: status code and body.  An exception that no handler of
    the view catches is the status 500 with the body [unhandled]. *)
Record response := mkResponse {
  status : nat;
  content : http_body;
}.

(** The first lines of every [biro_*] view: the caller must have a
    profile, and the profile must have [is_biro]. *)
Definition biro_only (db : DB) (request_user : nat) : option response :=
  match Profile_get_by_user db request_user with
  | None => Some (mkResponse 404 (error_body "Profile not found"))
  | Some profile =>
      if is_biro profile.2 then None
      else Some (mkResponse 403 (error_body "Biro permission required"))
  end.

Definition by_frame_number (a b : nat * Frame) : Prop :=
  frame_number a.2 ≤ frame_number b.2.

Instance by_frame_number_dec : RelDecision by_frame_number :=
  fun a b => decide (frame_number a.2 ≤ frame_number b.2).




(** [biro_create_event] ([api_view(['POST'])]); [frame_id] comes from the
    URL, the fields from the body. *)
Definition biro_create_event (db : DB) (now request_user frame_id : nat)
    (data : EventFields) : DB * response * list effect :=
  match biro_only db request_user with
  | Some r => (db, r, [])
  | None =>
      match Frame_objects db !! frame_id with
      | None => (db, mkResponse 404 (error_body "Frame not found"), [])
      | Some frame =>
          let create player :=
            let fields := mkEventFields (ef_eventType data) (ef_details data)
                            (ef_turn_number data) player (ef_ball_ids data)
                            None in
            match MatchEvent_create db now fields with
            | None => (db, mkResponse 500 unhandled, [])
            | Some (db1, event) =>
                (events_add frame_id event.1 db1,
                 mkResponse 201 (event_body event),
                 [group_send (spectator_room (f_match frame)) "event_created"
                    (event_data event)])
            end in
          match truthy_id (ef_player_id data) with
          | Some p =>
              match Profile_objects db !! p with
              | None =>
                  (db, mkResponse 400 (error_body "Player not found"), [])
              | Some _ => create (Some p)
              end
          | None => create None
          end
      end
  end.

(** The request methods. *)
Inductive method : Type := GET | POST | PUT | DELETE.

Instance method_eq_dec : EqDecision method.
Proof. solve_decision. Defined.

(** What the function views read of a request: the [Authorization]
    header, the method, whether the body parses as JSON, and the [user]
    attribute, which [jwt_required] sets. *)
Record request := mkRequest {
  authorization : option string;
  http_method : method;
  body_is_json : bool;
  request_user : option nat;
}.

Definition with_user (user_id : nat) (r : request) : request :=
  mkRequest (authorization r) (http_method r) (body_is_json r) (Some user_id).

(** A view: from the store and a request to the store and a response. *)
Abbreviation view := (DB -> request -> DB * response).

Section decorators.
(** [AccessToken(token)['user_id']], [None] when the token is refused. *)
Variable AccessToken : string -> option nat.

(** [utils.jwt_required] *)
Definition jwt_required (view_func : view) : view :=
  fun db request =>
    let auth_header := default "" (authorization request) in
    if String.prefix "Bearer " auth_header then
      let token := default "" (split " " auth_header !! 1) in
      match AccessToken token with
      | None =>
          (db, mkResponse 401 (error_detail_body "Invalid or expired token"))
      | Some user_id =>
          if decide (user_id ∈ User_objects db)
          then view_func db (with_user user_id request)
          else (db, mkResponse 404 (error_body "User not found"))
      end
    else (db, mkResponse 401
                (error_body "Missing or invalid Authorization header")).

(** [utils.biro_required] *)
Definition biro_required (view_func : view) : view :=
  fun db request =>
    match request_user request with
    | None => (db, mkResponse 401 (error_body "Authentication required"))
    | Some user_id =>
        match Profile_get_by_user db user_id with
        | None => (db, mkResponse 404 (error_body "Profile not found"))
        | Some profile =>
            if is_biro profile.2 then view_func db request
            else (db, mkResponse 403 (error_body "Biro permission required"))
        end
    end.

(** Django's [require_http_methods] *)
Definition require_http_methods (allowed : list method) (view_func : view)
    : view :=
  fun db request =>
    if decide (http_method request ∈ allowed) then view_func db request
    else (db, mkResponse 405 empty_body).

(** [match.delete()]: the row goes, and by the cascade of the foreign key
    every frame of the match with its membership rows; events are not
    referred to by any cascade and stay. *)
Definition Match_delete (match_id : nat) (db : DB) : DB :=
  with_frames
    (filter (fun kf : nat * Frame => f_match kf.2 <> match_id)
            (Frame_objects db))
    (with_matches (delete match_id (Match_objects db)) db).

(** The function under the decorators of [biro_manage_match]. *)
Definition biro_manage_match_body (match_id : nat) : view :=
  fun db request =>
    match Match_objects db !! match_id with
    | None => (db, mkResponse 404 (error_body "Match not found"))
    | Some match_ =>
        match http_method request with
        | POST =>
            if body_is_json request
            then (db, mkResponse 200 (message_body "Created"))
            else (db, mkResponse 400 (error_body "Invalid JSON"))
        | PUT =>
            if body_is_json request
            then (db, mkResponse 200 (message_body "Updated"))
            else (db, mkResponse 400 (error_body "Invalid JSON"))
        | DELETE =>
            (Match_delete match_id db, mkResponse 200 (message_body "Deleted"))
        | GET => (db, mkResponse 500 unhandled)
        end
    end.

(** [biro_manage_match], with its decorators in the order they apply;
    [csrf_exempt] only marks the view. *)
Definition biro_manage_match (match_id : nat) : view :=
  jwt_required
    (biro_required
       (require_http_methods [POST; PUT; DELETE]
          (biro_manage_match_body match_id))).
End decorators.

(** The fields a [create_event] command must carry to ask for what
    [biro_create_event] is asked with [data] on [frame_id]. *)
Definition for_frame (frame_id : nat) (data : EventFields) : EventFields :=
  mkEventFields (ef_eventType data) (ef_details data) (ef_turn_number data)
                (ef_player_id data) (ef_ball_ids data) (Some frame_id).

(** The token [jwt_required] reads from a request: what stands between
    the first and the second blank of the [Authorization] header. *)
Definition bearer_token (r : request) : string :=
  default "" (split " " (default "" (authorization r)) !! 1).

(** A request of user 1 of [sample_db], a scorekeeper, to delete. *)
Definition sample_delete : request :=
  mkRequest (Some "Bearer t1") DELETE false None.

(** The number of [next_player] events of a sequence. *)
Definition count_next_player (evs : list MatchEvent) : nat :=
  length (filter (fun e => eventType e = NEXT_PLAYER) evs).

(** Whether a sequence starts with an event that is not [next_player]. *)
Definition starts_mid_turn (evs : list MatchEvent) : nat :=
  match evs with
  | e :: _ => if decide (eventType e = NEXT_PLAYER) then 0 else 1
  | [] => 0
  end.

(** * Properties *)

(** ** Turn segmentation *)

Section turns.
Implicit Types (evs turn : list MatchEvent) (e : MatchEvent).

Lemma tail_snoc {A} (l : list A) x : l <> [] -> tail (l ++ [x]) = tail l ++ [x].
Proof. by destruct l. Qed.

Lemma turns_inv_nil : turns_inv [] ([], []).
Proof. split; simpl; auto. by intros []. Qed.

Lemma turns_inv_step evs st e :
  turns_inv evs st -> turns_inv (evs ++ [e]) (turn_step st e).
Proof.
  intros [Hc Hcl Hcur Hop Hopd]. destruct st as [turns cur]; simpl in *.
  unfold turn_step; simpl. case_decide as Hnp.
  - destruct cur as [|c cur]; simpl in *.
    + split; simpl; auto.
      * by rewrite <- Hc, !app_nil_r.
      * intros _. by exists e.
    + split; simpl; auto.
      * by rewrite concat_app, <- Hc; simpl; rewrite app_nil_r, <- app_assoc.
      * apply Forall_app; split; [done|]. by repeat constructor.
      * destruct (decide (turns = [])) as [->|Hne]; simpl; [done|].
        rewrite tail_snoc by done. apply Forall_app; split; auto.
      * intros _. by exists e.
  - split; simpl; auto.
    + by rewrite <- Hc, app_assoc.
    + destruct cur as [|c cur]; simpl in *; [done|].
      apply Forall_app; split; auto.
    + intros Hne. destruct (Hopd Hne) as (c & Hhd & Hc').
      exists c. split; [|done]. destruct cur; simplify_eq/=; done.
Qed.

Lemma turns_inv_foldl evs : turns_inv evs (foldl turn_step ([], []) evs).
Proof.
  induction evs as [|e evs IH] using rev_ind; [apply turns_inv_nil|].
  rewrite foldl_app; simpl. by apply turns_inv_step.
Qed.

Lemma last_concat_snoc (turns : list (list MatchEvent)) turn e :
  last (concat (turns ++ [turn])) = Some e -> turn <> [] -> last turn = Some e.
Proof.
  rewrite concat_app; simpl. rewrite app_nil_r.
  destruct turn as [|x turn _] using rev_ind; [done|].
  rewrite app_assoc, !last_snoc. done.
Qed.

(** C3: the turns of an event sequence, concatenated in order, are the
    sequence itself; no turn is empty; a [next_player] event stands only at
    the front of a turn, and every turn after the first starts with one;
    the last event of the sequence ends the last turn, whether or not a
    [next_player] follows it.  The method on a frame segments the frame's
    events in timestamp order. *)
Theorem turns_partition evs :
  concat (turns_of evs) = evs
  /\ Forall closed_turn (turns_of evs)
  /\ Forall opens_turn (tail (turns_of evs))
  /\ (forall e, last evs = Some e ->
        exists turn, last (turns_of evs) = Some turn /\ last turn = Some e)
  /\ (forall db self,
        concat (return_events_as_turns db self)
        = (events_by_timestamp db self).*2).
Proof.
  assert (Hgen : forall evs, concat (turns_of evs) = evs
                 /\ Forall closed_turn (turns_of evs)
                 /\ Forall opens_turn (tail (turns_of evs))).
  { clear evs. intros evs. unfold turns_of.
    destruct (turns_inv_foldl evs) as [Hc Hcl Hcur Hop Hopd].
    destruct (foldl turn_step ([], []) evs) as [turns cur]; simpl in *.
    destruct cur as [|c cur]; simpl in *.
    - by rewrite app_nil_r in Hc.
    - split_and!.
      + by rewrite concat_app; simpl; rewrite app_nil_r.
      + apply Forall_app; split; [done|]. by repeat constructor.
      + destruct (decide (turns = [])) as [->|Hne]; simpl; [done|].
        rewrite tail_snoc by done. apply Forall_app; split; auto. }
  destruct (Hgen evs) as (Hc & Hcl & Hop). split_and!; try done.
  - intros e He.
    destruct (turns_of evs) as [|turn turns _] using rev_ind.
    + simpl in Hc. by subst.
    + exists turn. rewrite last_snoc. split; [done|].
      apply Forall_app in Hcl as [_ Hturn].
      apply Forall_singleton in Hturn as [Hne _].
      rewrite <- Hc in He. by eapply last_concat_snoc.
  - intros db self. apply Hgen.
Qed.
End turns.

(** ** Balls on the table *)

Section balls.
Implicit Types (d : pydict bool) (k b : string) (evs : list MatchEvent).

Lemma dict_set_keys {V} k (v : V) (d : pydict V) :
  (dict_set k v d).*1 = if decide (k ∈ d.*1) then d.*1 else d.*1 ++ [k].
Proof.
  induction d as [|[k' v'] d IH].
  - done.
  - cbn [dict_set]. destruct (decide (k' = k)) as [->|Hne].
    + clear IH. cbn [fmap list_fmap fst]. case_decide as Hin; [done|].
      exfalso. apply Hin. left.
    + change ((((k', v') :: dict_set k v d).*1)) with (k' :: (dict_set k v d).*1).
      rewrite IH. change (((k', v') :: d).*1) with (k' :: d.*1).
      destruct (decide (k ∈ d.*1)) as [Hin|Hin];
        destruct (decide (k ∈ k' :: d.*1)) as [Hin'|Hin']; try done.
      * exfalso. apply Hin'. by right.
      * apply elem_of_cons in Hin' as [->|Hin']; done.
Qed.

Lemma dict_set_NoDup {V} k (v : V) (d : pydict V) :
  NoDup d.*1 -> NoDup (dict_set k v d).*1.
Proof.
  intros Hd. rewrite dict_set_keys. case_decide; [done|].
  apply NoDup_app. split_and!; [done| |apply NoDup_singleton].
  intros x Hx ->%list_elem_of_singleton. done.
Qed.

Lemma on_table_keys_cons k (v : bool) d :
  on_table_keys ((k, v) :: d)
  = if v then k :: on_table_keys d else on_table_keys d.
Proof.
  unfold on_table_keys. rewrite filter_cons; simpl.
  destruct v; case_decide; done.
Qed.

Lemma on_table_keys_subseteq d k : k ∈ on_table_keys d -> k ∈ d.*1.
Proof.
  unfold on_table_keys. intros ([k' v] & -> & [_ Hin]%list_elem_of_filter)%list_elem_of_fmap.
  by apply (list_elem_of_fmap_2 fst) in Hin.
Qed.

Lemma filter_ne_id k (l : list string) :
  k ∉ l -> filter (fun b => b <> k) l = l.
Proof.
  induction l as [|x l IH]; [done|].
  rewrite not_elem_of_cons. intros [Hne Hl].
  rewrite filter_cons_True by done. by rewrite IH.
Qed.

Lemma on_table_keys_pot d k :
  NoDup d.*1 ->
  on_table_keys (dict_set k false d) = filter (fun b => b <> k) (on_table_keys d).
Proof.
  induction d as [|[k' v'] d IH]; simpl; [done|].
  intros [Hk' Hd]%NoDup_cons. case_decide as Hk; subst.
  - rewrite !on_table_keys_cons.
    assert (filter (fun b => b <> k) (on_table_keys d) = on_table_keys d) as Hid.
    { apply filter_ne_id. intros Hin. by apply Hk', on_table_keys_subseteq. }
    destruct v'; [|by rewrite Hid].
    rewrite filter_cons_False by naive_solver. by rewrite Hid.
  - rewrite !on_table_keys_cons, IH by done.
    destruct v'; [|done]. by rewrite filter_cons_True.
Qed.

Lemma on_table_keys_pot_all d (bs : list string) :
  NoDup d.*1 ->
  NoDup (foldl (fun d b => dict_set b false d) d bs).*1
  /\ on_table_keys (foldl (fun d b => dict_set b false d) d bs)
     = filter (fun b => b ∉ bs) (on_table_keys d).
Proof.
  revert d. induction bs as [|b bs IH]; intros d Hd; simpl.
  - split; [done|]. symmetry. induction (on_table_keys d) as [|x l IHl]; [done|].
    rewrite filter_cons_True by apply not_elem_of_nil. by rewrite IHl.
  - destruct (IH (dict_set b false d)) as [Hnd ->]; [by apply dict_set_NoDup|].
    split; [done|]. rewrite on_table_keys_pot, list_filter_filter by done.
    apply list_filter_iff. intros x. rewrite not_elem_of_cons. tauto.
Qed.

Lemma pot_event_spec d e :
  NoDup d.*1 ->
  NoDup (pot_event d e).*1
  /\ on_table_keys (pot_event d e)
     = filter (fun b => b ∉ potted [e]) (on_table_keys d).
Proof.
  intros Hd. unfold pot_event, potted; simpl. rewrite app_nil_r.
  case_decide; [by apply on_table_keys_pot_all|].
  split; [done|]. symmetry. induction (on_table_keys d) as [|x l IHl]; [done|].
  rewrite filter_cons_True by apply not_elem_of_nil. by rewrite IHl.
Qed.

Lemma initial_balls_NoDup : NoDup initial_balls_on_table.*1.
Proof. vm_compute. apply (bool_decide_unpack _). by vm_compute. Qed.

Lemma foldl_pot_event_NoDup d evs :
  NoDup d.*1 -> NoDup (foldl pot_event d evs).*1.
Proof.
  revert d. induction evs as [|e evs IH]; intros d Hd; simpl; [done|].
  apply IH. by apply pot_event_spec.
Qed.

Lemma balls_on_table_snoc evs e :
  balls_on_table_of (evs ++ [e])
  = filter (fun b => b ∉ potted [e]) (balls_on_table_of evs).
Proof.
  unfold balls_on_table_of. rewrite foldl_app; simpl.
  apply pot_event_spec, foldl_pot_event_NoDup, initial_balls_NoDup.
Qed.

Lemma balls_on_table_closed evs :
  balls_on_table_of evs
  = filter (fun b => b ∉ potted evs) (balls_on_table_of []).
Proof.
  induction evs as [|e evs IH] using rev_ind.
  - symmetry. induction (balls_on_table_of []) as [|x l IHl]; [done|].
    rewrite filter_cons_True by apply not_elem_of_nil. by rewrite IHl.
  - rewrite balls_on_table_snoc, IH, list_filter_filter.
    apply list_filter_iff. intros x. unfold potted.
    rewrite bind_app, not_elem_of_app. tauto.
Qed.
End balls.



Lemma turns_partition_witness :
  exists turn,
    last (turns_of
            [mkMatchEvent "balls_potted" 10 None None None (Some ["1"]);
             mkMatchEvent "next_player" 11 None None None None;
             mkMatchEvent "faul" 12 None None None None]) = Some turn
    /\ last turn = Some (mkMatchEvent "faul" 12 None None None None).
Proof.
  apply (proj1 (proj2 (proj2 (proj2 (turns_partition _))))). reflexivity.
Defined.

(** ** The best-of-N gate *)

Section frame_gate.
Implicit Types (db : DB) (m : Match).

Lemma frame_gate_already_won p1 p2 n :
  (n + 1) `div` 2 <= p1 \/ (n + 1) `div` 2 <= p2 ->
  frame_gate p1 p2 n = already_won.
Proof. intros H. unfold frame_gate. by rewrite decide_True. Qed.


Lemma create_frame_result db match_id m n :
  Match_objects db !! match_id = Some m ->
  create_frame db match_id n
  = match frame_gate (wins db match_id (player1 m))
                     (wins db match_id (player2 m)) (frames_to_win m) with
    | may_create =>
        let k := default (size (match_frames db match_id) + 1) n in
        ((Frame_create db match_id k).1,
         Some (mkFrameData (next_frame_id db) k [] None None None))
    | _ => (db, None)
    end.
Proof.
  intros Hm. unfold create_frame. rewrite Hm.
  destruct (frame_gate _ _ _); try done.
  unfold Frame_create; simpl. rewrite lookup_insert_eq; simpl.
  unfold FrameSerializer; simpl. rewrite lookup_insert_eq; simpl.
  unfold frame_events. cbn [events]. by rewrite elements_empty.
Qed.


End frame_gate.


(** ** Detaching and deleting events *)

Section store.
Implicit Types (db : DB) (f : Frame) (id : nat).

Lemma detach_twice (s : gset nat) id : s ∖ {[id]} ∖ {[id]} = s ∖ {[id]}.
Proof.
  apply set_eq. intros x. rewrite !elem_of_difference. tauto.
Qed.

(** Deleting an event detaches it everywhere, so a detachment made just
    before is absorbed. *)
Lemma MatchEvent_delete_events_remove frame_id id db :
  MatchEvent_delete id (events_remove frame_id id db)
  = MatchEvent_delete id db.
Proof.
  unfold MatchEvent_delete, events_remove, with_events, with_frames; simpl.
  f_equal. apply map_eq. intros i.
  rewrite !lookup_fmap, lookup_alter.
  case_decide; subst; [|done].
  destruct (Frame_objects db !! i) as [f|]; simpl; [|done].
  unfold set_events; simpl. by rewrite detach_twice.
Qed.

Lemma MatchEvent_delete_foldl_remove id (frames : list (nat * Frame)) db :
  MatchEvent_delete id
    (foldl (fun db frame => events_remove frame.1 id db) db frames)
  = MatchEvent_delete id db.
Proof.
  revert db. induction frames as [|fr frames IH]; intros db; simpl; [done|].
  by rewrite IH, MatchEvent_delete_events_remove.
Qed.

Lemma MatchEvent_delete_event id db :
  MatchEvent_objects (MatchEvent_delete id db) !! id = None.
Proof. simpl. apply lookup_delete_eq. Qed.

Lemma MatchEvent_delete_frame id db frame_id :
  Frame_objects (MatchEvent_delete id db) !! frame_id
  = (fun f => set_events (events f ∖ {[id]}) f)
      <$> Frame_objects db !! frame_id.
Proof. simpl. by rewrite lookup_fmap. Qed.

Lemma elem_of_frames_holding db match_id id frame_id f :
  (frame_id, f) ∈ frames_holding db match_id id
  <-> Frame_objects db !! frame_id = Some f
      /\ f_match f = match_id /\ id ∈ events f.
Proof.
  unfold frames_holding.
  rewrite elem_of_map_to_list, map_lookup_filter_Some. simpl. tauto.
Qed.

Lemma frames_holding_nil db match_id id :
  frames_holding db match_id id = [] <-> ~ held_in_match db match_id id.
Proof.
  split.
  - intros Hnil (frame_id & f & Hf).
    apply elem_of_frames_holding in Hf. rewrite Hnil in Hf.
    by apply elem_of_nil in Hf.
  - intros Hno. destruct (frames_holding db match_id id) as [|[i f] l] eqn:E;
      [done|].
    exfalso. apply Hno. exists i, f. apply elem_of_frames_holding.
    rewrite E. left.
Qed.

(** C5: an event id that resolves to no event, or to an event that no
    frame of the addressed match holds, makes [remove_match_event] answer
    not found and return the store as it was; an event that a frame of
    the match holds is deleted and detached from every frame, and the
    answer carries the event id and the ids of exactly the frames of the
    match that held it. *)
Theorem remove_match_event_spec db match_id :
  (forall event_id,
     (forall id, event_id = Some id ->
        MatchEvent_objects db !! id = None
        \/ ~ held_in_match db match_id id) ->
     exists message,
       remove_match_event db match_id event_id = (db, Failure message)
       /\ event_not_found message)
  /\ (forall id event,
        MatchEvent_objects db !! id = Some event ->
        held_in_match db match_id id ->
        exists db' frame_ids,
          remove_match_event db match_id (Some id)
          = (db', Success (mkEventRemoved (Some id) frame_ids))
          /\ NoDup frame_ids
          /\ (forall frame_id,
                frame_id ∈ frame_ids
                <-> exists f, Frame_objects db !! frame_id = Some f
                              /\ f_match f = match_id /\ id ∈ events f)
          /\ MatchEvent_objects db' = delete id (MatchEvent_objects db)
          /\ (forall frame_id,
                Frame_objects db' !! frame_id
                = (fun f => set_events (events f ∖ {[id]}) f)
                    <$> Frame_objects db !! frame_id)).
Proof.
  split.
  - intros [id|] Hno; unfold remove_match_event; simpl.
    + destruct (MatchEvent_objects db !! id) as [event|] eqn:Hev; simpl.
      * destruct (Hno id eq_refl) as [?|Hheld]; [congruence|].
        apply frames_holding_nil in Hheld. rewrite Hheld.
        eexists. split; [done|]. by right.
      * eexists. split; [done|]. by left.
    + eexists. split; [done|]. by left.
  - intros id event Hev Hheld. unfold remove_match_event; simpl.
    rewrite Hev; simpl.
    destruct (frames_holding db match_id id) as [|fr frames] eqn:E.
    { apply frames_holding_nil in E. contradiction. }
    rewrite <- E. exists (MatchEvent_delete id db), (frames_holding db match_id id).*1.
    split_and!.
    + by rewrite MatchEvent_delete_foldl_remove.
    + apply NoDup_fst_map_to_list.
    + intros frame_id. rewrite list_elem_of_fmap. split.
      * intros ([i f] & -> & Hin). exists f. by apply elem_of_frames_holding.
      * intros (f & Hf). exists (frame_id, f). split; [done|].
        by apply elem_of_frames_holding.
    + done.
    + apply MatchEvent_delete_frame.
Qed.

Lemma elem_of_frame_events db f id event :
  (id, event) ∈ frame_events db f
  <-> id ∈ events f /\ MatchEvent_objects db !! id = Some event.
Proof.
  unfold frame_events. rewrite list_elem_of_omap. split.
  - intros (i & Hi%elem_of_elements & Hrow).
    destruct (MatchEvent_objects db !! i) as [e|] eqn:E; simplify_eq/=.
    done.
  - intros [Hin Hrow]. exists id. rewrite elem_of_elements.
    by rewrite Hrow.
Qed.

(** After an event is deleted, the frame holds what it held, minus that
    event. *)
Lemma frame_events_delete db f id e :
  e ∈ frame_events (MatchEvent_delete id db)
        (set_events (events f ∖ {[id]}) f)
  <-> e ∈ frame_events db f /\ e.1 <> id.
Proof.
  destruct e as [i event]. rewrite !elem_of_frame_events; simpl.
  rewrite elem_of_difference, not_elem_of_singleton.
  destruct (decide (i = id)) as [->|Hne].
  - rewrite lookup_delete_eq. intuition congruence.
  - rewrite lookup_delete_ne by done. tauto.
Qed.

Instance by_timestamp_desc_trans : Transitive by_timestamp_desc.
Proof. intros a b c. unfold by_timestamp_desc. lia. Qed.

Instance by_timestamp_desc_total : Total by_timestamp_desc.
Proof. intros a b. unfold by_timestamp_desc. lia. Qed.

(** [.order_by('-timestamp').first()] is an attached event that no other
    attached event is later than; it is missing only if none is
    attached. *)
Lemma latest_event db f :
  match head (events_by_timestamp_desc db f) with
  | Some last_event =>
      last_event ∈ frame_events db f
      /\ forall e, e ∈ frame_events db f ->
           timestamp e.2 <= timestamp last_event.2
  | None => frame_events db f = []
  end.
Proof.
  unfold events_by_timestamp_desc.
  pose proof (merge_sort_Permutation by_timestamp_desc (frame_events db f))
    as Hperm.
  pose proof (StronglySorted_merge_sort by_timestamp_desc (frame_events db f))
    as Hsorted.
  destruct (merge_sort by_timestamp_desc (frame_events db f)) as [|x l]; simpl.
  - by apply Permutation_nil_l in Hperm.
  - split.
    + rewrite <- Hperm. left.
    + intros e He. rewrite <- Hperm in He.
      apply elem_of_cons in He as [->|He]; [done|].
      apply StronglySorted_inv in Hsorted as [_ Hall].
      rewrite Forall_forall in Hall. by apply Hall.
Qed.

Lemma get_frame_Some db match_id frame_id f :
  Frame_objects db !! frame_id = Some f -> f_match f = match_id ->
  get_frame db match_id (Some frame_id) = Some (frame_id, f).
Proof.
  intros Hf Hm. unfold get_frame, Frame_get_in_match; simpl.
  rewrite Hf; simpl. by rewrite decide_True.
Qed.

(** C6: on a frame of the addressed match, [undo_last_event] deletes one
    attached event, none of whose fellows has a later timestamp, reports
    its id and event type, and leaves the frame holding the other events;
    with no event attached it fails and returns the store as it was; so
    on a frame with a single event the first call removes it and the
    second fails. *)
Theorem undo_last_event_spec db match_id frame_id f :
  Frame_objects db !! frame_id = Some f ->
  f_match f = match_id ->
  (frame_events db f = [] ->
     undo_last_event db match_id (Some frame_id)
     = (db, Failure "No events to undo in this frame"))
  /\ (frame_events db f <> [] ->
       exists id event f',
         undo_last_event db match_id (Some frame_id)
         = (MatchEvent_delete id db,
            Success (mkEventUndone id (Some frame_id) (eventType event)))
         /\ (id, event) ∈ frame_events db f
         /\ (forall e, e ∈ frame_events db f ->
               timestamp e.2 <= timestamp event)
         /\ MatchEvent_objects (MatchEvent_delete id db) !! id = None
         /\ Frame_objects (MatchEvent_delete id db) !! frame_id = Some f'
         /\ f' = set_events (events f ∖ {[id]}) f
         /\ (forall e, e ∈ frame_events (MatchEvent_delete id db) f'
                       <-> e ∈ frame_events db f /\ e.1 <> id))
  /\ (forall e, frame_events db f = [e] ->
       exists db',
         undo_last_event db match_id (Some frame_id)
         = (db', Success (mkEventUndone e.1 (Some frame_id) (eventType e.2)))
         /\ undo_last_event db' match_id (Some frame_id)
            = (db', Failure "No events to undo in this frame")).
Proof.
  intros Hf Hm.
  assert (Hundo : frame_events db f <> [] ->
       exists id event f',
         undo_last_event db match_id (Some frame_id)
         = (MatchEvent_delete id db,
            Success (mkEventUndone id (Some frame_id) (eventType event)))
         /\ (id, event) ∈ frame_events db f
         /\ (forall e, e ∈ frame_events db f ->
               timestamp e.2 <= timestamp event)
         /\ MatchEvent_objects (MatchEvent_delete id db) !! id = None
         /\ Frame_objects (MatchEvent_delete id db) !! frame_id = Some f'
         /\ f' = set_events (events f ∖ {[id]}) f
         /\ (forall e, e ∈ frame_events (MatchEvent_delete id db) f'
                       <-> e ∈ frame_events db f /\ e.1 <> id)).
  { intros Hne. unfold undo_last_event.
    rewrite (get_frame_Some _ _ _ _ Hf Hm).
    pose proof (latest_event db f) as Hlast.
    destruct (head (events_by_timestamp_desc db f)) as [[id event]|];
      [|done].
    destruct Hlast as [Hin Hmax]. simpl.
    exists id, event, (set_events (events f ∖ {[id]}) f).
    rewrite MatchEvent_delete_events_remove. split_and!; try done.
    - apply lookup_delete_eq.
    - by rewrite lookup_fmap, Hf.
    - intros e. apply frame_events_delete. }
  split_and!; [|done|].
  - intros Hnil. unfold undo_last_event.
    rewrite (get_frame_Some _ _ _ _ Hf Hm).
    unfold events_by_timestamp_desc. by rewrite Hnil.
  - intros e He.
    destruct Hundo as (id & event & f' & Hrun & Hin & _ & _ & Hf' & -> & Hleft).
    { by rewrite He. }
    rewrite He in Hin. apply list_elem_of_singleton in Hin as <-.
    exists (MatchEvent_delete id db). split; [done|].
    assert (frame_events (MatchEvent_delete id db)
              (set_events (events f ∖ {[id]}) f) = []) as Hnil.
    { apply elem_of_nil_inv. intros e0 Hin.
      apply Hleft in Hin as [Hin Hne]. rewrite He in Hin.
      apply list_elem_of_singleton in Hin as ->. done. }
    unfold undo_last_event.
    rewrite (get_frame_Some _ _ _ _ Hf' Hm).
    unfold events_by_timestamp_desc. by rewrite Hnil.
Qed.
End store.

(** ** Ball groups *)

Section ball_groups.
Implicit Types (db : DB) (f : Frame) (g : option string).

Lemma valid_group_iff g :
  valid_group g = true
  <-> g = Some BALL_GROUP_FULL \/ g = Some BALL_GROUP_STRIPED.
Proof.
  unfold valid_group, BALL_GROUP_FULL, BALL_GROUP_STRIPED.
  destruct g as [s|]; [|split; [done|intros [|]; done]].
  rewrite andb_true_iff, !bool_decide_eq_true.
  rewrite !elem_of_cons, elem_of_nil. split.
  - intros (_ & [->| [->|[]]]); auto.
  - intros [[= ->]|[= ->]]; split; auto; discriminate.
Qed.

Lemma Frame_save_fetched db frame_id f obj :
  Frame_objects db !! frame_id = Some f ->
  events obj = events f ->
  Frame_save frame_id obj db
  = with_frames (<[frame_id := obj]> (Frame_objects db)) db.
Proof.
  intros Hf Hev. unfold Frame_save. f_equal. apply map_eq. intros i.
  rewrite lookup_alter, lookup_insert. case_decide; subst; [|done].
  rewrite Hf; simpl. rewrite <- Hev. by destruct obj.
Qed.

(** C8: on an existing frame of the addressed match,
    [set_frame_ball_groups] answers with the frame and never fails; each
    of the two fields takes the value handed in if that value is [full]
    or [striped], and keeps its previous value if the value is absent or
    anything else; the frame's other fields, the other frames and the
    other tables stay as they were. *)
Theorem set_frame_ball_groups_spec db match_id frame_id f g1 g2 :
  Frame_objects db !! frame_id = Some f ->
  f_match f = match_id ->
  let f' := mkFrame (f_match f) (frame_number f) (events f) (winner f)
              (updated_group g1 (player1_ball_group f))
              (updated_group g2 (player2_ball_group f)) in
  let db' := with_frames (<[frame_id := f']> (Frame_objects db)) db in
  set_frame_ball_groups db match_id (Some frame_id) g1 g2
  = (db', Some (FrameSerializer db' frame_id f'))
  /\ (forall g old,
        updated_group g old
        = if decide (g = Some BALL_GROUP_FULL \/ g = Some BALL_GROUP_STRIPED)
          then g else old).
Proof.
  intros Hf Hm f' db'. split.
  - unfold set_frame_ball_groups.
    rewrite (get_frame_Some _ _ _ _ Hf Hm).
    assert ((if valid_group g2
             then set_player2_ball_group g2
                    (if valid_group g1 then set_player1_ball_group g1 f else f)
             else if valid_group g1 then set_player1_ball_group g1 f else f)
            = f') as Hobj.
    { unfold f', updated_group.
      destruct f, (valid_group g1), (valid_group g2); done. }
    cbv zeta. rewrite Hobj.
    by rewrite (Frame_save_fetched _ _ f).
  - intros g old. unfold updated_group.
    pose proof (valid_group_iff g) as Hv.
    destruct (valid_group g); case_decide; try done.
    + exfalso. tauto.
    + destruct Hv as [_ Hv]. by specialize (Hv ltac:(done)).
Qed.
End ball_groups.

(** ** Events created for a frame *)

Section create_event.
Implicit Types (db : DB) (f : Frame) (event : event_row).

Lemma MatchEvent_create_inv db now fields db1 event :
  MatchEvent_create db now fields = Some (db1, event) ->
  event.1 = next_event_id db
  /\ Frame_objects db1 = Frame_objects db
  /\ MatchEvent_objects db1 = <[event.1 := event.2]> (MatchEvent_objects db)
  /\ next_event_id db1 = S (next_event_id db)
  /\ timestamp event.2 = now.
Proof.
  unfold MatchEvent_create. intros Hc.
  destruct (ef_eventType fields) as [ty|]; simpl in Hc; [|done].
  case_decide; [|done]. by simplify_eq/=.
Qed.

End create_event.

(** ** The membership relation stays within the ids handed out *)

Section integrity.
Implicit Types (db : DB) (f : Frame).

Lemma events_known_intro db db' :
  next_event_id db <= next_event_id db' ->
  (forall i f' e, Frame_objects db' !! i = Some f' -> e ∈ events f' ->
     e < next_event_id db'
     \/ exists f, Frame_objects db !! i = Some f /\ e ∈ events f) ->
  events_known db -> events_known db'.
Proof.
  intros Hnext Hsub Hknown i f' Hf' e He.
  destruct (Hsub i f' e Hf' He) as [?|(f & Hf & Hin)]; [done|].
  specialize (Hknown i f Hf e Hin). simpl in *. lia.
Qed.

Lemma events_remove_known frame_id id db :
  events_known db -> events_known (events_remove frame_id id db).
Proof.
  apply events_known_intro; [done|]. simpl. intros i f' e Hf' He. right.
  apply lookup_alter_Some in Hf' as [(-> & f & Hf & ->)|[_ Hf]].
  - exists f. split; [done|]. simpl in He.
    by apply elem_of_difference in He as [He _].
  - by exists f'.
Qed.

Lemma MatchEvent_delete_known id db :
  events_known db -> events_known (MatchEvent_delete id db).
Proof.
  apply events_known_intro; [done|]. simpl. intros i f' e Hf' He. right.
  apply lookup_fmap_Some in Hf' as (f & <- & Hf).
  exists f. split; [done|]. simpl in He.
  by apply elem_of_difference in He as [He _].
Qed.

Lemma Frame_save_known frame_id obj db :
  events_known db -> events_known (Frame_save frame_id obj db).
Proof.
  apply events_known_intro; [done|]. simpl. intros i f' e Hf' He. right.
  apply lookup_alter_Some in Hf' as [(-> & f & Hf & ->)|[_ Hf]].
  - by exists f.
  - by exists f'.
Qed.

Lemma create_match_event_known db now fields :
  events_known db -> events_known (create_match_event db now fields).1.
Proof.
  intros Hknown. unfold create_match_event.
  destruct (MatchEvent_create db now fields) as [[db1 event]|] eqn:Hc; [|done].
  destruct (MatchEvent_create_inv _ _ _ _ _ Hc) as (Hid & Hfr & _ & Hnext & _).
  assert (events_known db1) as Hknown1.
  { revert Hknown. apply events_known_intro; [lia|].
    intros i f' e Hf' He. right. exists f'. by rewrite <- Hfr. }
  destruct (truthy_id (ef_frame_id fields)) as [frame_id|]; [|done].
  destruct (Frame_objects db1 !! frame_id) as [f|] eqn:Hf; [|done]. simpl.
  revert Hknown1. apply events_known_intro; [done|].
  simpl. intros i f' e Hf' He.
  apply lookup_alter_Some in Hf' as [(-> & f0 & Hf0 & ->)|[_ Hf']].
  - simpl in He. apply elem_of_union in He as [->%elem_of_singleton|He].
    + left. lia.
    + right. by exists f0.
  - right. by exists f'.
Qed.

Lemma create_frame_known db match_id n :
  events_known db -> events_known (create_frame db match_id n).1.
Proof.
  intros Hknown. unfold create_frame.
  destruct (Match_objects db !! match_id) as [m|]; [|done].
  destruct (frame_gate _ _ _); try done. simpl.
  revert Hknown. apply events_known_intro; [done|].
  simpl. intros i f' e Hf' He. right.
  apply lookup_insert_Some in Hf' as [[_ <-]|[_ Hf']].
  - simpl in He. by apply elem_of_empty in He.
  - by exists f'.
Qed.

Lemma end_frame_known db frame_id winner_id :
  events_known db -> events_known (end_frame db frame_id winner_id).1.
Proof.
  intros Hknown. unfold end_frame.
  destruct (frame_id ≫= _) as [[id frame]|]; [|done].
  destruct (truthy_id winner_id) as [w|]; [|done].
  destruct (Profile_objects db !! w); [|done]. simpl.
  by apply Frame_save_known.
Qed.

Lemma update_match_known db match_id updates :
  events_known db -> events_known (update_match db match_id updates).1.
Proof.
  intros Hknown. unfold update_match.
  by destruct (Match_objects db !! match_id).
Qed.

Lemma remove_match_event_known db match_id event_id :
  events_known db -> events_known (remove_match_event db match_id event_id).1.
Proof.
  intros Hknown. unfold remove_match_event.
  destruct (event_id ≫= _) as [[id event]|]; [|done].
  destruct (frames_holding db match_id id) as [|fr frames]; [done|].
  cbn [fst]. rewrite MatchEvent_delete_foldl_remove.
  by apply MatchEvent_delete_known.
Qed.

Lemma undo_last_event_known db match_id frame_id :
  events_known db -> events_known (undo_last_event db match_id frame_id).1.
Proof.
  intros Hknown. unfold undo_last_event.
  destruct (get_frame db match_id frame_id) as [[id frame]|]; [|done].
  destruct (head _) as [last_event|]; [|done]. simpl.
  by apply MatchEvent_delete_known, events_remove_known.
Qed.

Lemma remove_events_from_frame_known db match_id frame_id event_ids :
  events_known db ->
  events_known (remove_events_from_frame db match_id frame_id event_ids).1.
Proof.
  intros Hknown. unfold remove_events_from_frame.
  destruct (get_frame db match_id frame_id) as [[id frame]|]; [|done]. simpl.
  assert (forall st, events_known st.1 ->
            events_known (foldl (remove_one id) st event_ids).1) as Hfold.
  { induction event_ids as [|e l IH]; intros st Hst; simpl; [done|].
    apply IH. unfold remove_one.
    destruct (MatchEvent_objects st.1 !! e); [|done].
    destruct (frame_has_event st.1 id e); [|done]. simpl.
    by apply MatchEvent_delete_known, events_remove_known. }
  by apply Hfold.
Qed.

Lemma clear_frame_events_known db match_id frame_id :
  events_known db -> events_known (clear_frame_events db match_id frame_id).1.
Proof.
  intros Hknown. unfold clear_frame_events.
  destruct (get_frame db match_id frame_id) as [[id frame]|]; [|done]. simpl.
  generalize (frame_events db frame). intros l. revert db Hknown.
  induction l as [|e l IH]; intros db Hknown; simpl; [done|].
  by apply IH, MatchEvent_delete_known, events_remove_known.
Qed.

Lemma set_frame_ball_groups_known db match_id frame_id g1 g2 :
  events_known db ->
  events_known (set_frame_ball_groups db match_id frame_id g1 g2).1.
Proof.
  intros Hknown. unfold set_frame_ball_groups.
  destruct (get_frame db match_id frame_id) as [[id frame]|]; [|done]. simpl.
  by apply Frame_save_known.
Qed.

(** Whatever arrives, [receive] keeps the membership relation within the
    event ids already handed out. *)
Lemma receive_known db now match_id text_data :
  events_known db -> events_known (receive db now match_id text_data).1.
Proof.
  intros Hknown. destruct text_data as [|e|action data]; simpl; try done.
  repeat case_decide; simpl;
    eauto using create_match_event_known, create_frame_known, end_frame_known,
      update_match_known, remove_match_event_known, undo_last_event_known,
      remove_events_from_frame_known, clear_frame_events_known,
      set_frame_ball_groups_known.
Qed.
End integrity.


(** ** Which commands check the match of the frame they address *)

Section frame_match.
Implicit Types (db : DB) (f : Frame).

Lemma get_frame_other_match db match_id frame_id f :
  Frame_objects db !! frame_id = Some f -> f_match f <> match_id ->
  get_frame db match_id (Some frame_id) = None.
Proof.
  intros Hf Hm. unfold get_frame, Frame_get_in_match; simpl.
  rewrite Hf; simpl. by rewrite decide_False.
Qed.

(** C10, in the form the code supports: addressed to a frame that
    exists but belongs to another match, [undo_last_event],
    [remove_events_from_frame], [clear_frame_events] and
    [set_frame_ball_groups] fail and return the store as it was, the first
    three saying that the frame was not found; [create_match_event] and
    [end_frame] look the frame up by id alone, so the first attaches its
    new event to that frame and the second sets its winner, whichever
    match the session addresses. *)
Theorem frame_lookup_by_match db match_id frame_id f :
  Frame_objects db !! frame_id = Some f ->
  f_match f <> match_id ->
  undo_last_event db match_id (Some frame_id) = (db, Failure "Frame not found")
  /\ (forall event_ids,
        remove_events_from_frame db match_id (Some frame_id) event_ids
        = (db, Failure "Frame not found"))
  /\ clear_frame_events db match_id (Some frame_id)
     = (db, Failure "Frame not found")
  /\ (forall g1 g2,
        set_frame_ball_groups db match_id (Some frame_id) g1 g2 = (db, None))
  /\ (forall now fields db1 event,
        MatchEvent_create db now fields = Some (db1, event) ->
        ef_frame_id fields = Some frame_id -> frame_id <> 0 ->
        exists db',
          create_match_event db now fields = (db', Some event)
          /\ Frame_objects db' !! frame_id
             = Some (set_events ({[event.1]} ∪ events f) f))
  /\ (forall w p,
        Profile_objects db !! w = Some p -> w <> 0 ->
        exists db' d,
          end_frame db (Some frame_id) (Some w) = (db', Some d)
          /\ Frame_objects db' !! frame_id = Some (set_winner (Some w) f)).
Proof.
  intros Hf Hm.
  pose proof (get_frame_other_match _ _ _ _ Hf Hm) as Hget.
  split_and!.
  - unfold undo_last_event. by rewrite Hget.
  - intros event_ids. unfold remove_events_from_frame. by rewrite Hget.
  - unfold clear_frame_events. by rewrite Hget.
  - intros g1 g2. unfold set_frame_ball_groups. by rewrite Hget.
  - intros now fields db1 event Hc Hfid Hnz.
    destruct (MatchEvent_create_inv _ _ _ _ _ Hc) as (_ & Hfr & _).
    unfold create_match_event. rewrite Hc, Hfid.
    destruct frame_id as [|n]; [done|]. simpl. rewrite Hfr, Hf.
    eexists. split; [done|]. simpl.
    by rewrite lookup_alter_eq, Hfr, Hf.
  - intros w p Hp Hnz. unfold end_frame; simpl. rewrite Hf; simpl.
    destruct w as [|w]; [done|]. simpl. rewrite Hp.
    eexists _, _. split; [done|]. simpl.
    rewrite lookup_alter_eq, Hf; simpl. by destruct f.
Qed.
End frame_match.

(** C10 as stated fails for [end_frame]: from the session of match 1 it
    sets the winner of frame 2, which belongs to match 2. *)
Lemma end_frame_any_match :
  f_match <$> Frame_objects sample_db !! 2 = Some 2
  /\ winner <$> Frame_objects sample_db !! 2 = Some None
  /\ winner <$>
       Frame_objects
         (receive sample_db 20 1
            (object (Some "end_frame")
               (only_frame_and_winner (Some 2) (Some 1)))).1 !! 2
     = Some (Some 1).
Proof. by vm_compute. Qed.

(** ** Admission of a scorekeeper *)

Section admission.
Variable AccessToken : string -> option nat.
Implicit Types (db : DB) (query_string token : string).


End admission.

(** ** Commands that get no answer *)

Lemma acks_answer {A} match_id type (wrap : A -> payload) extra fallback r :
  length (acks (answer match_id type wrap extra fallback r)) = 1.
Proof. by destruct r. Qed.

(** The five commands that do answer: one message on the session's own
    socket, whether the helper succeeded or failed. *)
Lemma answered_commands db now match_id action data :
  action ∈ ["remove_event"; "undo_last_event"; "remove_events_from_frame";
            "clear_frame_events"; "set_ball_groups"] ->
  length (acks (receive db now match_id (object (Some action) data)).2) = 1.
Proof.
  intros Hin. unfold receive.
  repeat (apply elem_of_cons in Hin as [->|Hin]);
    [..|by apply elem_of_nil in Hin];
    repeat (rewrite decide_False by done); rewrite decide_True by done;
    cbn [snd]; try apply acks_answer.
  by destruct (set_frame_ball_groups _ _ _ _ _).2.
Qed.

(** C2 does not hold of [receive]: a [start_frame] is never answered on
    the session's own socket, whether the frame is created or denied (here,
    a match already decided at 2-2 of 4), and an action that is none of
    the nine is dropped without a word. *)
Theorem commands_left_unanswered :
  (forall db now match_id data,
     acks (receive db now match_id (object (Some "start_frame") data)).2 = [])
  /\ receive (tied_db 4) 0 1 (object (Some "start_frame") no_fields)
     = (tied_db 4, [])
  /\ (forall db now match_id data,
        receive db now match_id (object (Some "bogus") data) = (db, [])).
Proof.
  split_and!.
  - intros db now match_id data. unfold receive.
    rewrite decide_False by done. rewrite decide_True by done. simpl.
    by destruct (create_frame db match_id (msg_frame_number data)).2.
  - by vm_compute.
  - intros db now match_id data. unfold receive.
    by rewrite !decide_False by done.
Qed.

(** ** The statements at work on the sample store *)

Lemma remove_match_event_spec_witness :
  exists message,
    remove_match_event sample_db 2 (Some 1) = (sample_db, Failure message)
    /\ event_not_found message.
Proof.
  apply (proj1 (remove_match_event_spec sample_db 2) (Some 1)).
  intros id [= <-]. right. by apply frames_holding_nil.
Defined.

Lemma undo_last_event_spec_witness :
  exists id event,
    undo_last_event sample_db 1 (Some 1)
    = (MatchEvent_delete id sample_db,
       Success (mkEventUndone id (Some 1) (eventType event)))
    /\ (id, event) ∈ frame_events sample_db sample_frame.
Proof.
  destruct (proj1 (proj2 (undo_last_event_spec sample_db 1 1 sample_frame
                            eq_refl eq_refl)))
    as (id & event & f' & Hrun & Hin & _).
  - vm_compute. discriminate.
  - by exists id, event.
Defined.

Lemma set_frame_ball_groups_spec_witness :
  (set_frame_ball_groups sample_db 1 (Some 1) (Some "striped") (Some "red")).1
  = with_frames
      (<[1 := mkFrame 1 1 {[1; 2]} (Some 1) (Some "striped") None]>
         (Frame_objects sample_db)) sample_db.
Proof.
  rewrite (proj1 (set_frame_ball_groups_spec sample_db 1 1 sample_frame
                    (Some "striped") (Some "red") eq_refl eq_refl)).
  reflexivity.
Defined.


Lemma frame_lookup_by_match_witness :
  undo_last_event sample_db 2 (Some 1) = (sample_db, Failure "Frame not found").
Proof.
  apply (frame_lookup_by_match sample_db 2 1 sample_frame eq_refl).
  vm_compute. lia.
Defined.


(** * Further properties of the scorekeeper's commands *)

(** ** Removing several events, clearing a frame *)

Section bulk_removal.
Implicit Types (db : DB) (f : Frame) (ids : list nat).

Lemma elem_of_attached_ids db f i :
  i ∈ attached_ids db f
  <-> i ∈ events f /\ is_Some (MatchEvent_objects db !! i).
Proof.
  unfold attached_ids. rewrite list_elem_of_fmap. split.
  - intros ([j event] & -> & Hin). apply elem_of_frame_events in Hin as [? Hrow].
    split; [done|]. by exists event.
  - intros [Hin [event Hrow]]. exists (i, event). split; [done|].
    by apply elem_of_frame_events.
Qed.

Lemma delete_all_snoc ids i db :
  delete_all (ids ++ [i]) db = MatchEvent_delete i (delete_all ids db).
Proof. unfold delete_all. by rewrite foldl_app. Qed.

Lemma delete_all_event ids db i :
  MatchEvent_objects (delete_all ids db) !! i
  = if decide (i ∈ ids) then None else MatchEvent_objects db !! i.
Proof.
  induction ids as [|j ids IH] using rev_ind.
  - done.
  - rewrite delete_all_snoc. simpl.
    destruct (decide (j = i)) as [->|Hne].
    + rewrite lookup_delete_eq, decide_True; [done|].
      apply elem_of_app. right. by apply list_elem_of_singleton.
    + rewrite lookup_delete_ne, IH by done.
      repeat case_decide; try done.
      * exfalso. set_solver.
      * exfalso. set_solver.
Qed.

Lemma delete_all_frame ids db frame_id :
  Frame_objects (delete_all ids db) !! frame_id
  = (fun f => set_events (events f ∖ list_to_set ids) f)
      <$> Frame_objects db !! frame_id.
Proof.
  induction ids as [|j ids IH] using rev_ind.
  - simpl. destruct (Frame_objects db !! frame_id) as [f|]; simpl; [|done].
    f_equal. destruct f; unfold set_events; simpl. f_equal. set_solver.
  - rewrite delete_all_snoc. simpl. rewrite lookup_fmap, IH.
    destruct (Frame_objects db !! frame_id) as [f|]; simpl; [|done].
    f_equal. unfold set_events; simpl. f_equal.
    rewrite list_to_set_app_L. set_solver.
Qed.

Lemma delete_all_next ids db :
  next_event_id (delete_all ids db) = next_event_id db
  /\ next_frame_id (delete_all ids db) = next_frame_id db
  /\ Match_objects (delete_all ids db) = Match_objects db
  /\ Profile_objects (delete_all ids db) = Profile_objects db
  /\ User_objects (delete_all ids db) = User_objects db.
Proof.
  induction ids as [|j ids IH] using rev_ind; [done|].
  rewrite delete_all_snoc. simpl. apply IH.
Qed.

Lemma frame_has_event_delete_all db frame_id f R e :
  Frame_objects db !! frame_id = Some f ->
  frame_has_event (delete_all R db) frame_id e = true
  <-> (e ∉ R) /\ e ∈ attached_ids db f.
Proof.
  intros Hf. unfold frame_has_event. rewrite delete_all_frame, Hf. simpl.
  rewrite bool_decide_eq_true.
  change ((frame_events ?d ?g).*1) with (attached_ids d g).
  rewrite !elem_of_attached_ids, delete_all_event. simpl.
  rewrite elem_of_difference, elem_of_list_to_set.
  case_decide; split; tauto.
Qed.

(** One turn of the loop of [remove_events_from_frame], started from the
    store in which the ids of [R] are already deleted. *)
Lemma remove_one_inv db frame_id f seen R e :
  Frame_objects db !! frame_id = Some f ->
  NoDup R ->
  (forall i, i ∈ R <-> i ∈ seen /\ i ∈ attached_ids db f) ->
  exists R',
    remove_one frame_id (delete_all R db, R) e = (delete_all R' db, R')
    /\ NoDup R'
    /\ (forall i, i ∈ R' <-> i ∈ seen ++ [e] /\ i ∈ attached_ids db f).
Proof.
  intros Hf Hnd HR.
  pose proof (frame_has_event_delete_all db frame_id f R e Hf) as Hhas.
  unfold remove_one. cbn [fst snd]. rewrite delete_all_event.
  assert (Hkeep : (e ∈ attached_ids db f -> e ∈ R) ->
            forall i, i ∈ R <-> i ∈ seen ++ [e] /\ i ∈ attached_ids db f).
  { intros He i. rewrite HR, elem_of_app, list_elem_of_singleton.
    split; [tauto|]. intros [[?| ->] Hi]; [done|]. by apply HR, He. }
  destruct (decide (e ∈ R)) as [HeR|HeR].
  { exists R. split_and!; [done..|]. by apply Hkeep. }
  destruct (MatchEvent_objects db !! e) as [row|] eqn:Hrow.
  - destruct (frame_has_event (delete_all R db) frame_id e) eqn:Hb.
    + destruct (proj1 Hhas eq_refl) as [_ Hatt]. exists (R ++ [e]). split_and!.
      * by rewrite MatchEvent_delete_events_remove, delete_all_snoc.
      * apply NoDup_app. split_and!; [done| |apply NoDup_singleton].
        intros x Hx ->%list_elem_of_singleton. done.
      * intros i. rewrite !elem_of_app, !list_elem_of_singleton, HR.
        split; [|tauto]. intros [?| ->]; tauto.
    + exists R. split_and!; [done..|]. apply Hkeep. intros Hatt.
      assert (false = true) as Hc; [by apply Hhas|done].
  - exists R. split_and!; [done..|]. apply Hkeep.
    intros [_ [? ?]]%elem_of_attached_ids. congruence.
Qed.

Lemma remove_events_loop db frame_id f event_ids seen R :
  Frame_objects db !! frame_id = Some f ->
  NoDup R ->
  (forall i, i ∈ R <-> i ∈ seen /\ i ∈ attached_ids db f) ->
  exists R',
    foldl (remove_one frame_id) (delete_all R db, R) event_ids
    = (delete_all R' db, R')
    /\ NoDup R'
    /\ (forall i, i ∈ R' <-> i ∈ seen ++ event_ids /\ i ∈ attached_ids db f).
Proof.
  intros Hf. revert seen R.
  induction event_ids as [|e l IH]; intros seen R Hnd HR; simpl.
  - exists R. split_and!; [done..|]. intros i. by rewrite app_nil_r.
  - destruct (remove_one_inv db frame_id f seen R e Hf Hnd HR)
      as (R1 & -> & Hnd1 & HR1).
    destruct (IH (seen ++ [e]) R1 Hnd1 HR1) as (R' & Hrun & Hnd' & HR').
    exists R'. split_and!; [done..|]. intros i.
    by rewrite HR', <- app_assoc.
Qed.


Lemma clear_loop frame_id (l : list event_row) db :
  foldl (fun db event =>
           MatchEvent_delete event.1 (events_remove frame_id event.1 db)) db l
  = delete_all l.*1 db.
Proof.
  revert db. induction l as [|e l IH]; intros db; simpl; [done|].
  by rewrite IH, MatchEvent_delete_events_remove.
Qed.

(** X2: on a frame of the addressed match, [clear_frame_events] always
    succeeds and reports the ids of the attached events and their number.
    Afterwards the frame holds no event, so its table shows the fifteen
    object balls again and it has no turn; the events that were attached
    are gone from the table and from every other frame that also held
    them; all other events are kept. *)
Theorem clear_frame_events_spec db match_id frame_id f :
  Frame_objects db !! frame_id = Some f ->
  f_match f = match_id ->
  let ids := attached_ids db f in
  let db' := delete_all ids db in
  clear_frame_events db match_id (Some frame_id)
  = (db', Success (mkFrameEventsCleared (Some frame_id) ids (length ids)))
  /\ (exists f',
        Frame_objects db' !! frame_id = Some f'
        /\ frame_events db' f' = []
        /\ get_balls_on_table db' f' = balls_on_table_of []
        /\ return_events_as_turns db' f' = [])
  /\ (forall i, i ∉ ids ->
        MatchEvent_objects db' !! i = MatchEvent_objects db !! i)
  /\ (forall i, i ∈ ids ->
        MatchEvent_objects db' !! i = None
        /\ forall j g, Frame_objects db' !! j = Some g -> i ∉ events g).
Proof.
  intros Hf Hm ids db'. split_and!.
  - unfold clear_frame_events. rewrite (get_frame_Some _ _ _ _ Hf Hm).
    cbv zeta. by rewrite clear_loop.
  - exists (set_events (events f ∖ list_to_set ids) f).
    assert (frame_events db' (set_events (events f ∖ list_to_set ids) f) = [])
      as Hnil.
    { apply elem_of_nil_inv. intros [i event] Hin.
      apply elem_of_frame_events in Hin as [Hin Hrow]. simpl in Hin.
      apply elem_of_difference in Hin as [Hin Hnot].
      rewrite elem_of_list_to_set in Hnot.
      unfold db' in Hrow. rewrite delete_all_event in Hrow.
      rewrite decide_False in Hrow by done.
      apply Hnot, elem_of_attached_ids. split; [done|]. by exists event. }
    split_and!.
    + unfold db'. by rewrite delete_all_frame, Hf.
    + done.
    + unfold get_balls_on_table, events_by_timestamp. by rewrite Hnil.
    + unfold return_events_as_turns, events_by_timestamp. by rewrite Hnil.
  - intros i Hi. unfold db'. rewrite delete_all_event.
    by rewrite decide_False.
  - intros i Hi. split.
    + unfold db'. rewrite delete_all_event. by rewrite decide_True.
    + intros j g Hg. unfold db' in Hg. rewrite delete_all_frame in Hg.
      destruct (Frame_objects db !! j) as [g0|]; simplify_eq/=.
      rewrite elem_of_difference, elem_of_list_to_set. tauto.
Qed.


Lemma clear_frame_events_spec_witness :
  clear_frame_events sample_db 1 (Some 1)
  = (delete_all (attached_ids sample_db sample_frame) sample_db,
     Success (mkFrameEventsCleared (Some 1)
                (attached_ids sample_db sample_frame)
                (length (attached_ids sample_db sample_frame)))).
Proof.
  apply (clear_frame_events_spec sample_db 1 1 sample_frame eq_refl eq_refl).
Defined.
End bulk_removal.

(** ** Ending a frame *)

Section end_frame.
Implicit Types (db : DB) (f : Frame).

Lemma end_frame_set db frame_id f w p :
  Frame_objects db !! frame_id = Some f ->
  w <> 0 -> Profile_objects db !! w = Some p ->
  let db' := with_frames (<[frame_id := set_winner (Some w) f]>
                            (Frame_objects db)) db in
  end_frame db (Some frame_id) (Some w)
  = (db', Some (FrameSerializer db' frame_id (set_winner (Some w) f))).
Proof.
  intros Hf Hw Hp db'. unfold end_frame. simpl. rewrite Hf. simpl.
  destruct w as [|w]; [done|]. simpl. rewrite Hp.
  by rewrite (Frame_save_fetched _ _ f).
Qed.

(** X3: [end_frame] finds the frame by id alone.  A [winner_id] that is
    absent, null or 0 changes nothing and the frame is reported as it is;
    one that names no profile makes the command fail without any change;
    one that names a profile, whether or not that profile plays in the
    match, becomes the winner, and nothing else in the store changes.  So
    [end_frame] can set or replace a winner but never clear one. *)
Theorem end_frame_spec db frame_id f winner_id :
  Frame_objects db !! frame_id = Some f ->
  (truthy_id winner_id = None ->
     end_frame db (Some frame_id) winner_id
     = (db, Some (FrameSerializer db frame_id f)))
  /\ (forall w, winner_id = Some w -> w <> 0 ->
        Profile_objects db !! w = None ->
        end_frame db (Some frame_id) winner_id = (db, None))
  /\ (forall w p, winner_id = Some w -> w <> 0 ->
        Profile_objects db !! w = Some p ->
        let db' := with_frames (<[frame_id := set_winner (Some w) f]>
                                  (Frame_objects db)) db in
        end_frame db (Some frame_id) winner_id
        = (db', Some (FrameSerializer db' frame_id (set_winner (Some w) f))))
  /\ (is_Some (winner f) ->
        exists f', Frame_objects (end_frame db (Some frame_id) winner_id).1
                     !! frame_id = Some f'
                   /\ is_Some (winner f')).
Proof.
  intros Hf.
  assert (Hnone : truthy_id winner_id = None ->
     end_frame db (Some frame_id) winner_id
     = (db, Some (FrameSerializer db frame_id f))).
  { intros Hw. unfold end_frame. simpl. rewrite Hf. simpl. by rewrite Hw. }
  assert (Hunknown : forall w, winner_id = Some w -> w <> 0 ->
        Profile_objects db !! w = None ->
        end_frame db (Some frame_id) winner_id = (db, None)).
  { intros w -> Hw Hp. unfold end_frame. simpl. rewrite Hf. simpl.
    destruct w as [|w]; [done|]. simpl. by rewrite Hp. }
  split_and!; [done|done| |].
  - intros w p -> Hw Hp. by apply (end_frame_set _ _ _ _ p).
  - intros Hwin.
    destruct (truthy_id winner_id) as [w|] eqn:Htr.
    + assert (winner_id = Some w /\ w <> 0) as [-> Hw].
      { destruct winner_id as [[|n]|]; simplify_eq/=. done. }
      destruct (Profile_objects db !! w) as [p|] eqn:Hp.
      * rewrite (end_frame_set _ _ _ _ _ Hf Hw Hp). simpl.
        rewrite lookup_insert_eq. by eexists.
      * rewrite (Hunknown w eq_refl Hw Hp). by exists f.
    + rewrite (Hnone eq_refl). by exists f.
Qed.

Lemma end_frame_spec_witness :
  exists f',
    Frame_objects (end_frame sample_db (Some 1) None).1 !! 1 = Some f'
    /\ is_Some (winner f').
Proof.
  apply (end_frame_spec sample_db 1 sample_frame None eq_refl).
  by eexists.
Defined.
End end_frame.

(** ** Win counts *)

Section win_counts.
Implicit Types (db : DB) (f g : Frame).

Lemma wins_as_filter db match_id p :
  wins db match_id p
  = size (filter (fun kf : nat * Frame =>
                    winner kf.2 = Some p /\ f_match kf.2 = match_id)
                 (Frame_objects db)).
Proof. unfold wins, match_frames. by rewrite map_filter_filter. Qed.

(** Replacing the row of one frame moves the win counts by what the old
    and the new row contribute. *)
Lemma wins_replace db frame_id f g match_id p :
  Frame_objects db !! frame_id = Some f ->
  let counts h := if decide (winner h = Some p /\ f_match h = match_id)
                  then 1 else 0 in
  wins (with_frames (<[frame_id := g]> (Frame_objects db)) db) match_id p
    + counts f
  = wins db match_id p + counts g.
Proof.
  intros Hf counts. rewrite !wins_as_filter. simpl.
  set (P := fun kf : nat * Frame =>
              winner kf.2 = Some p /\ f_match kf.2 = match_id).
  set (W := filter P (Frame_objects db)).
  assert (W !! frame_id = if decide (P (frame_id, f)) then Some f else None)
    as HW.
  { unfold W. case_decide as HP.
    - by apply map_lookup_filter_Some.
    - apply map_lookup_filter_None. right. intros f' Hf'. by simplify_eq. }
  assert (forall h, counts h = if decide (P (frame_id, h)) then 1 else 0)
    as Hcounts; [done|].
  rewrite !Hcounts, map_filter_insert. fold W.
  destruct (decide (P (frame_id, g))) as [Hg|Hg].
  - rewrite map_size_insert, HW. destruct (decide (P (frame_id, f))); simpl; lia.
  - rewrite map_filter_delete. fold W. rewrite map_size_delete, HW.
    destruct (decide (P (frame_id, f))) as [HP|HP]; simpl; [|lia].
    assert (size W <> 0).
    { apply (map_size_ne_0_lookup_2 _ frame_id). rewrite HW. by eexists. }
    lia.
Qed.

Lemma end_frame_moves_counts db frame_id f w p :
  Frame_objects db !! frame_id = Some f ->
  w <> 0 -> Profile_objects db !! w = Some p ->
  winner f <> Some w ->
  let db' := (end_frame db (Some frame_id) (Some w)).1 in
  wins db' (f_match f) w = S (wins db (f_match f) w)
  /\ (forall q, winner f = Some q ->
        S (wins db' (f_match f) q) = wins db (f_match f) q)
  /\ (forall q, q <> w -> winner f <> Some q ->
        wins db' (f_match f) q = wins db (f_match f) q)
  /\ (forall m q, m <> f_match f -> wins db' m q = wins db m q).
Proof.
  intros Hf Hw Hp Hold db'. unfold db'.
  rewrite (end_frame_set _ _ _ _ _ Hf Hw Hp). cbn [fst].
  split_and!.
  - pose proof (wins_replace db frame_id f (set_winner (Some w) f)
                  (f_match f) w Hf) as Heq.
    revert Heq. simpl. repeat case_decide; intros Heq; destruct_and?;
      simplify_eq; try lia; try tauto; try congruence.
  - intros q Hq.
    pose proof (wins_replace db frame_id f (set_winner (Some w) f)
                  (f_match f) q Hf) as Heq.
    revert Heq. simpl. repeat case_decide; intros Heq; destruct_and?;
      simplify_eq; try lia; try tauto; try congruence.
  - intros q Hq Hnot.
    pose proof (wins_replace db frame_id f (set_winner (Some w) f)
                  (f_match f) q Hf) as Heq.
    revert Heq. simpl. repeat case_decide; intros Heq; destruct_and?;
      simplify_eq; try lia; try tauto; try congruence.
  - intros m q Hm.
    pose proof (wins_replace db frame_id f (set_winner (Some w) f) m q Hf)
      as Heq.
    revert Heq. simpl. repeat case_decide; intros Heq; destruct_and?;
      simplify_eq; try lia; try tauto; try congruence.
Qed.

(** X4: when [end_frame] gives a frame of a match to a winner it did not
    have, that player's win count in the match goes up by one, the count
    of the player who held the frame before goes down by one, and every
    other count, in this match or another, stays. *)
Theorem end_frame_counts db frame_id f w p :
  Frame_objects db !! frame_id = Some f ->
  w <> 0 -> Profile_objects db !! w = Some p ->
  winner f <> Some w ->
  let db' := (end_frame db (Some frame_id) (Some w)).1 in
  wins db' (f_match f) w = S (wins db (f_match f) w)
  /\ (forall q, winner f = Some q ->
        S (wins db' (f_match f) q) = wins db (f_match f) q)
  /\ (forall q, q <> w -> winner f <> Some q ->
        wins db' (f_match f) q = wins db (f_match f) q)
  /\ (forall m q, m <> f_match f -> wins db' m q = wins db m q).
Proof. apply end_frame_moves_counts. Qed.

Lemma end_frame_counts_witness :
  wins (end_frame sample_db (Some 2) (Some 2)).1 2 2 = S (wins sample_db 2 2).
Proof.
  apply (end_frame_counts sample_db 2 (mkFrame 2 1 ∅ None None None) 2
           (mkProfile (Some 2) false)); try reflexivity; [lia|discriminate].
Defined.

(** X5: the frame that brings a player of the match to
    [(frames_to_win + 1) // 2] wins closes the match: right after that
    [end_frame], [create_frame] is refused, and a [start_frame] command is
    dropped without effect. *)
Theorem winning_frame_closes_match db now match_id match_ frame_id f w p n data :
  Match_objects db !! match_id = Some match_ ->
  w = player1 match_ \/ w = player2 match_ ->
  Frame_objects db !! frame_id = Some f ->
  f_match f = match_id ->
  winner f <> Some w ->
  w <> 0 -> Profile_objects db !! w = Some p ->
  (frames_to_win match_ + 1) `div` 2 <= S (wins db match_id w) ->
  msg_frame_number data = n ->
  let db' := (end_frame db (Some frame_id) (Some w)).1 in
  create_frame db' match_id n = (db', None)
  /\ receive db' now match_id (object (Some "start_frame") data) = (db', []).
Proof.
  intros Hm Hplayer Hf Hfm Hold Hw Hp Hneeded Hn db'.
  destruct (end_frame_moves_counts db frame_id f w p Hf Hw Hp Hold) as (Hup & _).
  fold db' in Hup. rewrite Hfm in Hup.
  assert (Match_objects db' !! match_id = Some match_) as Hm'.
  { unfold db'. by rewrite (end_frame_set _ _ _ _ _ Hf Hw Hp). }
  assert (create_frame db' match_id n = (db', None)) as Hrun.
  { rewrite (create_frame_result _ _ _ _ Hm'), frame_gate_already_won; [done|].
    destruct Hplayer as [<-|<-]; [left|right]; lia. }
  split; [done|]. unfold receive.
  rewrite decide_False by done. rewrite decide_True by done.
  cbv zeta. by rewrite Hn, Hrun.
Qed.
End win_counts.

Lemma winning_frame_closes_match_witness :
  create_frame (end_frame deciding_db (Some 5) (Some 1)).1 1 None
  = ((end_frame deciding_db (Some 5) (Some 1)).1, None).
Proof.
  apply (winning_frame_closes_match deciding_db 0 1 (mkMatch 1 2 None 5) 5
           (mkFrame 1 5 ∅ None None None) 1 (mkProfile None false) None
           no_fields);
    first [reflexivity | by left | discriminate | lia | (vm_compute; lia)].
Defined.

(** ** Primary keys are never reused *)

Section fresh_keys.
Implicit Types (db : DB).

Lemma extends_refl db : extends db db.
Proof. split; auto. Qed.

Lemma extends_trans db1 db2 db3 :
  extends db1 db2 -> extends db2 db3 -> extends db1 db3.
Proof.
  intros [Hf1 He1 Hfr1 Hr1] [Hf2 He2 Hfr2 Hr2]. split; [lia|lia| |].
  - intros i Hi. destruct (Hfr2 i Hi) as [Hi2|?]; [|right; lia].
    destruct (Hfr1 i Hi2) as [?|?]; [by left|right; lia].
  - intros i Hi. destruct (Hr2 i Hi) as [Hi2|?]; [|right; lia].
    destruct (Hr1 i Hi2) as [?|?]; [by left|right; lia].
Qed.

Lemma extends_same_keys db db' :
  next_frame_id db' = next_frame_id db ->
  next_event_id db' = next_event_id db ->
  (forall i, is_Some (Frame_objects db' !! i) -> is_Some (Frame_objects db !! i)) ->
  (forall i, is_Some (MatchEvent_objects db' !! i) ->
             is_Some (MatchEvent_objects db !! i)) ->
  extends db db'.
Proof. intros Hf He Hfr Hr. split; [lia|lia|auto|auto]. Qed.

Lemma events_remove_extends frame_id id db :
  extends db (events_remove frame_id id db).
Proof.
  apply extends_same_keys; try done. simpl. intros i.
  by rewrite lookup_alter_is_Some.
Qed.

Lemma events_add_extends frame_id id db :
  extends db (events_add frame_id id db).
Proof.
  apply extends_same_keys; try done. simpl. intros i.
  by rewrite lookup_alter_is_Some.
Qed.

Lemma Frame_save_extends frame_id obj db :
  extends db (Frame_save frame_id obj db).
Proof.
  apply extends_same_keys; try done. simpl. intros i.
  by rewrite lookup_alter_is_Some.
Qed.

Lemma MatchEvent_delete_extends id db :
  extends db (MatchEvent_delete id db).
Proof.
  apply extends_same_keys; try done; simpl; intros i.
  - rewrite lookup_fmap. by rewrite fmap_is_Some.
  - intros [x [_ Hx]%lookup_delete_Some]. by exists x.
Qed.

Lemma create_match_event_extends db now fields :
  extends db (create_match_event db now fields).1.
Proof.
  unfold create_match_event.
  destruct (MatchEvent_create db now fields) as [[db1 event]|] eqn:Hc;
    [|apply extends_refl].
  destruct (MatchEvent_create_inv _ _ _ _ _ Hc) as (Hid & Hfr & Hev & Hnext & _).
  assert (extends db db1) as Hext.
  { unfold MatchEvent_create in Hc.
    destruct (ef_eventType fields); simpl in Hc; [|done].
    case_decide; [|done]. simplify_eq. split; simpl; auto.
    intros i [x [[<- _]|[_ Hx]]%lookup_insert_Some]; [right; lia|left; by exists x]. }
  destruct (truthy_id _) as [frame_id|]; [|done].
  destruct (Frame_objects db1 !! frame_id); [|done]. simpl.
  eapply extends_trans; [exact Hext|apply events_add_extends].
Qed.

Lemma create_frame_extends db match_id n :
  extends db (create_frame db match_id n).1.
Proof.
  unfold create_frame.
  destruct (Match_objects db !! match_id); [|apply extends_refl].
  destruct (frame_gate _ _ _); try apply extends_refl. simpl.
  split; simpl; auto.
  intros i [x [[<- _]|[_ Hx]]%lookup_insert_Some]; [right; lia|left; by exists x].
Qed.

Lemma end_frame_extends db frame_id winner_id :
  extends db (end_frame db frame_id winner_id).1.
Proof.
  unfold end_frame.
  destruct (frame_id ≫= _) as [[id frame]|]; [|apply extends_refl].
  destruct (truthy_id winner_id) as [w|]; [|apply extends_refl].
  destruct (Profile_objects db !! w); [|apply extends_refl]. simpl.
  apply Frame_save_extends.
Qed.

Lemma update_match_extends db match_id updates :
  extends db (update_match db match_id updates).1.
Proof.
  unfold update_match.
  destruct (Match_objects db !! match_id); [|apply extends_refl].
  by apply extends_same_keys.
Qed.

Lemma remove_match_event_extends db match_id event_id :
  extends db (remove_match_event db match_id event_id).1.
Proof.
  unfold remove_match_event.
  destruct (event_id ≫= _) as [[id event]|]; [|apply extends_refl].
  destruct (frames_holding db match_id id) as [|fr frames];
    [apply extends_refl|].
  cbn [fst]. rewrite MatchEvent_delete_foldl_remove.
  apply MatchEvent_delete_extends.
Qed.

Lemma undo_last_event_extends db match_id frame_id :
  extends db (undo_last_event db match_id frame_id).1.
Proof.
  unfold undo_last_event.
  destruct (get_frame db match_id frame_id) as [[id frame]|];
    [|apply extends_refl].
  destruct (head _) as [last_event|]; [|apply extends_refl]. simpl.
  rewrite MatchEvent_delete_events_remove. apply MatchEvent_delete_extends.
Qed.

Lemma delete_all_extends ids db : extends db (delete_all ids db).
Proof.
  induction ids as [|i ids IH] using rev_ind; [apply extends_refl|].
  rewrite delete_all_snoc.
  eapply extends_trans; [exact IH|apply MatchEvent_delete_extends].
Qed.

Lemma set_frame_ball_groups_extends db match_id frame_id g1 g2 :
  extends db (set_frame_ball_groups db match_id frame_id g1 g2).1.
Proof.
  unfold set_frame_ball_groups.
  destruct (get_frame db match_id frame_id) as [[id frame]|];
    [|apply extends_refl].
  simpl. apply Frame_save_extends.
Qed.

Lemma get_frame_inv db match_id frame_id id f :
  get_frame db match_id frame_id = Some (id, f) ->
  frame_id = Some id /\ Frame_objects db !! id = Some f /\ f_match f = match_id.
Proof.
  unfold get_frame, Frame_get_in_match, objects_get.
  destruct frame_id as [i|]; simpl; [|done].
  destruct (Frame_objects db !! i) as [g|] eqn:Hg; simpl; [|done].
  case_decide; simpl; [|done]. by intros [= <- <-].
Qed.

Lemma remove_events_from_frame_extends db match_id frame_id event_ids :
  extends db (remove_events_from_frame db match_id frame_id event_ids).1.
Proof.
  unfold remove_events_from_frame.
  destruct (get_frame db match_id frame_id) as [[id frame]|] eqn:Hget;
    [|apply extends_refl].
  apply get_frame_inv in Hget as (_ & Hf & _).
  destruct (remove_events_loop db id frame event_ids [] [] Hf)
    as (R & Hrun & _).
  { apply NoDup_nil_2. }
  { intros i. split; [by intros ?%elem_of_nil|by intros [?%elem_of_nil _]]. }
  change (delete_all [] db) with db in Hrun. cbv zeta. rewrite Hrun.
  apply delete_all_extends.
Qed.

Lemma clear_frame_events_extends db match_id frame_id :
  extends db (clear_frame_events db match_id frame_id).1.
Proof.
  unfold clear_frame_events.
  destruct (get_frame db match_id frame_id) as [[id frame]|];
    [|apply extends_refl].
  cbv zeta. cbn [fst]. rewrite clear_loop. apply delete_all_extends.
Qed.

Lemma receive_extends db now match_id text_data :
  extends db (receive db now match_id text_data).1.
Proof.
  destruct text_data as [|e|action data]; simpl; try apply extends_refl.
  repeat case_decide; simpl;
    eauto using create_match_event_extends, create_frame_extends,
      end_frame_extends, update_match_extends, remove_match_event_extends,
      undo_last_event_extends, remove_events_from_frame_extends,
      clear_frame_events_extends, set_frame_ball_groups_extends, extends_refl.
Qed.

Lemma frames_known_extends db db' :
  extends db db' -> frames_known db -> frames_known db'.
Proof.
  intros [Hnext _ Hfr _] Hknown i f Hf.
  destruct (Hfr i) as [[g Hg]|?]; [by exists f| |lia].
  specialize (Hknown i g Hg). simpl in Hknown. lia.
Qed.

Lemma rows_known_extends db db' :
  extends db db' -> rows_known db -> rows_known db'.
Proof.
  intros [_ Hnext _ Hr] Hknown i e He.
  destruct (Hr i) as [[g Hg]|?]; [by exists e| |lia].
  specialize (Hknown i g Hg). simpl in Hknown. lia.
Qed.

(** X6: whatever message arrives, [receive] keeps the store sound: the
    counters never go back, a frame or event row present afterwards was
    present before or got its id from the counter during this call, and no
    frame holds the id of an event yet to come.  So a primary key is never
    used twice, also not after the row that carried it is deleted. *)
Theorem receive_store_ok db now match_id text_data :
  store_ok db ->
  store_ok (receive db now match_id text_data).1
  /\ extends db (receive db now match_id text_data).1.
Proof.
  intros (He & Hf & Hr).
  pose proof (receive_extends db now match_id text_data) as Hext.
  split; [|done]. split_and!.
  - by apply receive_known.
  - by eapply frames_known_extends.
  - by eapply rows_known_extends.
Qed.
End fresh_keys.

Lemma sample_db_ok : store_ok sample_db.
Proof.
  split_and!; apply (bool_decide_unpack _); by vm_compute.
Qed.

Lemma receive_store_ok_witness :
  store_ok
    (receive sample_db 20 1 (object (Some "undo_last_event")
       (only_frame_and_winner (Some 1) None))).1.
Proof.
  apply (receive_store_ok sample_db 20 1). apply sample_db_ok.
Defined.

(** ** Creating an event for a frame, and taking it back *)

Section attach.
Implicit Types (db : DB) (f : Frame) (event : event_row).

Lemma next_event_fresh db :
  store_ok db ->
  MatchEvent_objects db !! next_event_id db = None
  /\ forall j g, Frame_objects db !! j = Some g -> next_event_id db ∉ events g.
Proof.
  intros (He & _ & Hr). split.
  - destruct (MatchEvent_objects db !! next_event_id db) as [x|] eqn:Hx; [|done].
    specialize (Hr _ _ Hx). simpl in Hr. lia.
  - intros j g Hg Hin. specialize (He j g Hg _ Hin). simpl in He. lia.
Qed.

Lemma MatchEvent_create_row db now fields db1 event :
  MatchEvent_create db now fields = Some (db1, event) ->
  exists ty,
    ef_eventType fields = Some ty
    /\ event.2 = mkMatchEvent ty now (Some (default "" (ef_details fields)))
                   (ef_turn_number fields) (ef_player_id fields)
                   (Some (default [] (ef_ball_ids fields))).
Proof.
  unfold MatchEvent_create. intros Hc.
  destruct (ef_eventType fields) as [ty|]; simpl in Hc; [|done].
  case_decide; [|done]. exists ty. by simplify_eq.
Qed.

Lemma create_match_event_attach db now fields db1 event frame_id f :
  MatchEvent_create db now fields = Some (db1, event) ->
  ef_frame_id fields = Some frame_id -> frame_id <> 0 ->
  Frame_objects db !! frame_id = Some f ->
  create_match_event db now fields
  = (events_add frame_id event.1 db1, Some event)
  /\ Frame_objects (events_add frame_id event.1 db1) !! frame_id
     = Some (set_events ({[event.1]} ∪ events f) f).
Proof.
  intros Hc Hfid Hnz Hf.
  destruct (MatchEvent_create_inv _ _ _ _ _ Hc) as (_ & Hfr & _).
  unfold create_match_event. rewrite Hc, Hfid.
  destruct frame_id as [|n]; [done|]. simpl. rewrite Hfr, Hf.
  split; [done|]. by rewrite lookup_alter_eq, Hf.
Qed.

Lemma frame_events_attach db now fields db1 event frame_id f e :
  store_ok db ->
  MatchEvent_create db now fields = Some (db1, event) ->
  Frame_objects db !! frame_id = Some f ->
  e ∈ frame_events (events_add frame_id event.1 db1)
        (set_events ({[event.1]} ∪ events f) f)
  <-> e = event \/ e ∈ frame_events db f.
Proof.
  intros Hok Hc Hf.
  destruct (MatchEvent_create_inv _ _ _ _ _ Hc) as (Hid & _ & Hev & _).
  destruct (next_event_fresh db Hok) as [Hrow Hheld].
  specialize (Hheld _ _ Hf). rewrite <- Hid in Hrow, Hheld.
  destruct e as [i x], event as [id ev]. simpl in *.
  rewrite !elem_of_frame_events. simpl. rewrite Hev.
  rewrite elem_of_union, elem_of_singleton.
  destruct (decide (i = id)) as [->|Hne].
  - rewrite lookup_insert_eq. split.
    + intros [_ [= ->]]. by left.
    + intros [Heq|[? ?]]; [|congruence]. simplify_eq. split; [by left|done].
  - rewrite lookup_insert_ne by done. split.
    + intros [[?|?] ?]; [done|by right].
    + intros [Heq|[? ?]]; [by simplify_eq|]. split; [by right|done].
Qed.

(** X7: a [create_event] whose event row can be inserted and whose
    [frame_id] names an existing frame, of whichever match, stores the
    event under the next id with the current time, an empty string for
    absent [details] and an empty list for absent [ball_ids], and attaches
    it to that frame, which now holds it beside the events it held; the
    event is broadcast to the room of the session's match and acknowledged
    to the sender. *)
Theorem create_event_attaches db now match_id fields db1 event frame_id f :
  store_ok db ->
  MatchEvent_create db now fields = Some (db1, event) ->
  ef_frame_id fields = Some frame_id -> frame_id <> 0 ->
  Frame_objects db !! frame_id = Some f ->
  let db2 := events_add frame_id event.1 db1 in
  let f2 := set_events ({[event.1]} ∪ events f) f in
  receive db now match_id
    (object (Some "create_event") (only_event_data fields))
  = (db2, [group_send (spectator_room match_id) "event_created"
             (event_data event);
           send (ok_reply "event_created" (event_data event))])
  /\ Frame_objects db2 !! frame_id = Some f2
  /\ (forall e, e ∈ frame_events db2 f2 <-> e = event \/ e ∈ frame_events db f)
  /\ (event ∉ frame_events db f)
  /\ event.1 = next_event_id db
  /\ timestamp event.2 = now
  /\ details event.2 = Some (default "" (ef_details fields))
  /\ ball_ids event.2 = Some (default [] (ef_ball_ids fields)).
Proof.
  intros Hok Hc Hfid Hnz Hf db2 f2.
  destruct (create_match_event_attach _ _ _ _ _ _ _ Hc Hfid Hnz Hf)
    as [Hrun Hrow].
  destruct (MatchEvent_create_inv _ _ _ _ _ Hc) as (Hid & _ & _ & _ & Hts).
  split_and!; try done.
  - unfold receive. rewrite decide_True by done. simpl. by rewrite Hrun.
  - intros e. by eapply frame_events_attach.
  - destruct (next_event_fresh db Hok) as [Hfresh _].
    destruct event as [id ev]. simpl in *.
    intros [_ Hin]%elem_of_frame_events. congruence.
  - destruct (MatchEvent_create_row _ _ _ _ _ Hc) as (ty & _ & ->). done.
  - destruct (MatchEvent_create_row _ _ _ _ _ Hc) as (ty & _ & ->). done.
Qed.
End attach.

Section take_back.
Implicit Types (db : DB) (f : Frame) (event : event_row).

Lemma frame_events_same_rows db db' f :
  MatchEvent_objects db' = MatchEvent_objects db ->
  frame_events db' f = frame_events db f.
Proof. intros Heq. unfold frame_events. by rewrite Heq. Qed.

Lemma set_events_id f : set_events (events f) f = f.
Proof. by destruct f. Qed.

(** X8: an event created for a frame of the session's match at a time
    later than every event the frame holds is the one [undo_last_event]
    takes back: the undo reports its id and type, after which the frame
    and event tables are what they were before the event was created, and
    so are the balls on the table. *)
Theorem create_then_undo db now match_id fields db1 event frame_id f :
  store_ok db ->
  MatchEvent_create db now fields = Some (db1, event) ->
  ef_frame_id fields = Some frame_id -> frame_id <> 0 ->
  Frame_objects db !! frame_id = Some f ->
  f_match f = match_id ->
  (forall e, e ∈ frame_events db f -> timestamp e.2 < now) ->
  let db2 := (create_match_event db now fields).1 in
  exists db3,
    undo_last_event db2 match_id (Some frame_id)
    = (db3, Success (mkEventUndone event.1 (Some frame_id)
                       (eventType event.2)))
    /\ Frame_objects db3 = Frame_objects db
    /\ MatchEvent_objects db3 = MatchEvent_objects db
    /\ get_balls_on_table db3 f = get_balls_on_table db f.
Proof.
  intros Hok Hc Hfid Hnz Hf Hm Hlater db2.
  destruct (create_match_event_attach _ _ _ _ _ _ _ Hc Hfid Hnz Hf)
    as [Hrun Hrow].
  destruct (MatchEvent_create_inv _ _ _ _ _ Hc) as (Hid & Hfr & Hev & _ & Hts).
  destruct (next_event_fresh db Hok) as [Hfresh Hheld].
  rewrite <- Hid in Hfresh, Hheld.
  unfold db2. rewrite Hrun. cbn [fst].
  set (f2 := set_events ({[event.1]} ∪ events f) f) in *.
  set (db2' := events_add frame_id event.1 db1) in *.
  assert (Hin : forall e, e ∈ frame_events db2' f2
                          <-> e = event \/ e ∈ frame_events db f).
  { intros e. by eapply frame_events_attach. }
  (* the latest event of the frame is the one just created *)
  pose proof (latest_event db2' f2) as Hlast.
  destruct (head (events_by_timestamp_desc db2' f2)) as [last_event|] eqn:Hhead.
  2:{ exfalso. assert (event ∈ frame_events db2' f2) as Hev' by (apply Hin; by left).
      rewrite Hlast in Hev'. by apply elem_of_nil in Hev'. }
  destruct Hlast as [Hlast_in Hlast_max].
  assert (last_event = event) as ->.
  { apply Hin in Hlast_in as [?|Hold]; [done|]. exfalso.
    specialize (Hlater _ Hold).
    assert (timestamp event.2 <= timestamp last_event.2) as Hle.
    { apply Hlast_max, Hin. by left. }
    lia. }
  exists (MatchEvent_delete event.1 db2'). split_and!.
  - unfold undo_last_event.
    assert (f_match f2 = match_id) as Hm2 by done.
    rewrite (get_frame_Some _ _ _ _ Hrow Hm2), Hhead.
    by rewrite MatchEvent_delete_events_remove.
  - simpl. apply map_eq. intros j. rewrite lookup_fmap, Hfr.
    destruct (decide (j = frame_id)) as [->|Hne].
    + rewrite lookup_alter_eq, Hf. simpl. f_equal.
      destruct f; unfold set_events; simpl in *. f_equal.
      specialize (Hheld _ _ Hf). simpl in Hheld. set_solver.
    + rewrite lookup_alter_ne by done.
      destruct (Frame_objects db !! j) as [g|] eqn:Hg; simpl; [|done].
      f_equal. specialize (Hheld _ _ Hg).
      destruct g; unfold set_events; simpl in *. f_equal. set_solver.
  - simpl. rewrite Hev. by apply delete_insert_id.
  - unfold get_balls_on_table, events_by_timestamp.
    rewrite (frame_events_same_rows db); [done|].
    simpl. rewrite Hev. by apply delete_insert_id.
Qed.
End take_back.

Section potting.
Implicit Types (db : DB) (f : Frame) (event : event_row).

Lemma elem_of_potted b (evs : list MatchEvent) :
  b ∈ potted evs
  <-> exists e, e ∈ evs /\ eventType e = BALLS_POTTED /\ b ∈ truthy_ball_ids e.
Proof.
  unfold potted. rewrite list_elem_of_bind. split.
  - intros (e & Hb & He). case_decide; [by exists e|by apply elem_of_nil in Hb].
  - intros (e & He & Hty & Hb). exists e. by rewrite decide_True.
Qed.

(** The table of a frame is the fifteen object balls minus the ids potted
    by the events attached to it, in whatever order they come. *)
Lemma get_balls_on_table_closed db f :
  get_balls_on_table db f
  = filter (fun b => b ∉ potted (frame_events db f).*2) (balls_on_table_of []).
Proof.
  unfold get_balls_on_table. rewrite balls_on_table_closed.
  apply list_filter_iff. intros b.
  assert ((events_by_timestamp db f).*2 ≡ₚ (frame_events db f).*2) as Hperm.
  { unfold events_by_timestamp. by rewrite merge_sort_Permutation. }
  rewrite !elem_of_potted. by setoid_rewrite Hperm.
Qed.

(** X9: a [balls_potted] event created for a frame takes exactly its
    [ball_ids] off that frame's table, whatever timestamp it gets; an event
    of any other type leaves the table as it is. *)
Theorem potting_event_clears_balls db now fields db1 event frame_id f :
  store_ok db ->
  MatchEvent_create db now fields = Some (db1, event) ->
  ef_frame_id fields = Some frame_id -> frame_id <> 0 ->
  Frame_objects db !! frame_id = Some f ->
  let db2 := (create_match_event db now fields).1 in
  exists f2,
    Frame_objects db2 !! frame_id = Some f2
    /\ get_balls_on_table db2 f2
       = if decide (ef_eventType fields = Some BALLS_POTTED)
         then filter (fun b => b ∉ default [] (ef_ball_ids fields))
                     (get_balls_on_table db f)
         else get_balls_on_table db f.
Proof.
  intros Hok Hc Hfid Hnz Hf db2.
  destruct (create_match_event_attach _ _ _ _ _ _ _ Hc Hfid Hnz Hf)
    as [Hrun Hrow].
  destruct (MatchEvent_create_row _ _ _ _ _ Hc) as (ty & Hty & Hev).
  unfold db2. rewrite Hrun. cbn [fst].
  exists (set_events ({[event.1]} ∪ events f) f). split; [done|].
  rewrite !get_balls_on_table_closed.
  assert (Hpot : forall b,
            b ∈ potted (frame_events (events_add frame_id event.1 db1)
                          (set_events ({[event.1]} ∪ events f) f)).*2
            <-> (ty = BALLS_POTTED /\ b ∈ default [] (ef_ball_ids fields))
                \/ b ∈ potted (frame_events db f).*2).
  { intros b. rewrite !elem_of_potted. split.
    - intros (e & (ie & -> & Hin)%list_elem_of_fmap & Hbp & Hb).
      apply (frame_events_attach _ _ _ _ _ _ _ _ Hok Hc Hf) in Hin as [->|Hin].
      + left. rewrite Hev in Hbp, Hb. by simpl in *.
      + right. exists ie.2. split; [|done]. by apply list_elem_of_fmap_2.
    - intros [[Hbp Hb]|(e & (ie & -> & Hin)%list_elem_of_fmap & Hbp & Hb)].
      + exists event.2. split.
        * apply list_elem_of_fmap_2.
          apply (frame_events_attach _ _ _ _ _ _ _ _ Hok Hc Hf). by left.
        * rewrite Hev. by simpl.
      + exists ie.2. split; [|done]. apply list_elem_of_fmap_2.
        apply (frame_events_attach _ _ _ _ _ _ _ _ Hok Hc Hf). by right. }
  rewrite Hty. case_decide as Hbp.
  - rewrite list_filter_filter. apply list_filter_iff. intros b.
    rewrite Hpot. simplify_eq. tauto.
  - apply list_filter_iff. intros b. rewrite Hpot.
    assert (ty <> BALLS_POTTED) by congruence. tauto.
Qed.
End potting.

Lemma create_event_attaches_witness :
  (receive sample_db 20 1
     (object (Some "create_event") (only_event_data sample_pot))).2
  = [group_send (spectator_room 1) "event_created" (event_data sample_pot_event);
     send (ok_reply "event_created" (event_data sample_pot_event))].
Proof.
  destruct (create_event_attaches sample_db 20 1 sample_pot
              (mkDB (User_objects sample_db) (Profile_objects sample_db)
                 (Match_objects sample_db) (Frame_objects sample_db)
                 (<[3 := sample_pot_event.2]> (MatchEvent_objects sample_db))
                 3 4)
              sample_pot_event 1 sample_frame sample_db_ok)
    as (Hrecv & _); [reflexivity|reflexivity|lia|reflexivity|].
  by rewrite Hrecv.
Defined.

Lemma create_then_undo_witness :
  exists db3,
    undo_last_event (create_match_event sample_db 20 sample_pot).1 1 (Some 1)
    = (db3, Success (mkEventUndone 3 (Some 1) "balls_potted"))
    /\ Frame_objects db3 = Frame_objects sample_db
    /\ MatchEvent_objects db3 = MatchEvent_objects sample_db
    /\ get_balls_on_table db3 sample_frame
       = get_balls_on_table sample_db sample_frame.
Proof.
  apply (create_then_undo sample_db 20 1 sample_pot _ sample_pot_event 1
           sample_frame sample_db_ok eq_refl eq_refl); [lia|reflexivity..|].
  intros e He. vm_compute in He.
  repeat (apply elem_of_cons in He as [->|He]); [simpl; lia..|].
  by apply elem_of_nil in He.
Defined.

Lemma potting_event_clears_balls_witness :
  exists f2,
    Frame_objects (create_match_event sample_db 20 sample_pot).1 !! 1 = Some f2
    /\ get_balls_on_table (create_match_event sample_db 20 sample_pot).1 f2
       = filter (fun b => b ∉ ["3"]) (get_balls_on_table sample_db sample_frame).
Proof.
  apply (potting_event_clears_balls sample_db 20 sample_pot _ sample_pot_event
           1 sample_frame sample_db_ok eq_refl eq_refl); [lia|reflexivity].
Defined.

(** ** Starting frames again and again, and changing the length of a match *)

Section regate.
Implicit Types (db : DB).





End regate.



(** ** The token in the query string *)

Section query_string.
Implicit Types (s t : string) (l : list string) (sep : ascii).

Lemma split_no_sep sep s : has_char sep s = false -> split sep s = [s].
Proof.
  induction s as [|a s IH]; simpl; [done|].
  intros [Ha Hs]%orb_false_elim. apply bool_decide_eq_false in Ha.
  rewrite decide_False by done. by rewrite IH.
Qed.

Lemma split_app_sep sep s t :
  has_char sep s = false ->
  split sep (s +:+ String sep t) = s :: split sep t.
Proof.
  induction s as [|a s IH]; simpl.
  - intros _. by rewrite decide_True.
  - intros [Ha Hs]%orb_false_elim. apply bool_decide_eq_false in Ha.
    rewrite decide_False by done. by rewrite IH.
Qed.

(** Splitting undoes joining, as long as no piece contains the separator. *)
Lemma split_join sep l :
  l <> [] -> Forall (fun s => has_char sep s = false) l ->
  split sep (join sep l) = l.
Proof.
  induction l as [|s l IH]; [done|]. intros _ [Hs Hl]%Forall_cons.
  destruct l as [|s' l].
  - simpl. by apply split_no_sep.
  - change (join sep (s :: s' :: l)) with (s +:+ String sep (join sep (s' :: l))).
    rewrite split_app_sep by done. by rewrite IH.
Qed.

Lemma prefix_token t : String.prefix "token=" ("token=" +:+ t) = true.
Proof. simpl. by destruct t. Qed.

Lemma split_token t :
  split "="%char ("token=" +:+ t) !! 1 = head (split "="%char t).
Proof. simpl. change ("" +:+ t) with t. by destruct (split "=" t). Qed.

(** X12: [connect] takes the token from the first parameter of the
    query string that starts with [token=], whatever stands before or
    after it, and reads it up to the next [=]: a value without [=] is
    taken whole, a value that contains one is cut there.  A query string
    none of whose parameters starts with [token=] yields no token. *)
Theorem token_of_spec before value after :
  Forall (fun p => has_char "&" p = false) (before ++ value :: after) ->
  Forall (fun p => String.prefix "token=" p = false) before ->
  token_of (join "&" (before ++ ("token=" +:+ value) :: after))
  = head (split "=" value)
  /\ (has_char "=" value = false ->
      token_of (join "&" (before ++ ("token=" +:+ value) :: after))
      = Some value)
  /\ (forall t rest, value = t +:+ String "=" rest -> has_char "=" t = false ->
      token_of (join "&" (before ++ ("token=" +:+ value) :: after)) = Some t)
  /\ token_of (join "&" before) = None.
Proof.
  intros Hamp Hbefore.
  apply Forall_app in Hamp as [Hb [Hv Ha]%Forall_cons].
  assert (Htok : token_of (join "&" (before ++ ("token=" +:+ value) :: after))
                 = head (split "=" value)).
  { unfold token_of. rewrite split_join.
    - assert (list_find (fun p => String.prefix "token=" p = true)
                (before ++ ("token=" +:+ value) :: after)
              = Some (length before, "token=" +:+ value)) as ->.
      { apply list_find_Some. split_and!.
        - by rewrite lookup_app_r, Nat.sub_diag by lia.
        - apply prefix_token.
        - intros j p Hj Hlt. rewrite lookup_app_l in Hj by done.
          rewrite Forall_lookup in Hbefore. rewrite (Hbefore j p Hj). done. }
      simpl. apply split_token.
    - by destruct before.
    - apply Forall_app. split; [done|]. apply Forall_cons. split; [|done].
      simpl. done. }
  split_and!.
  - done.
  - intros Heq. by rewrite Htok, split_no_sep.
  - intros t rest -> Ht. by rewrite Htok, split_app_sep.
  - unfold token_of.
    assert (list_find (fun p => String.prefix "token=" p = true)
              (split "&" (join "&" before)) = None) as ->; [|done].
    apply list_find_None.
    destruct before as [|b before'].
    + simpl. apply Forall_singleton. done.
    + rewrite split_join by done.
      eapply Forall_impl; [exact Hbefore|]. simpl. intros p ->. done.
Qed.
End query_string.

Lemma token_of_spec_witness :
  token_of (join "&" (["room=7"] ++ ("token=" +:+ "abc=def") :: ["x=1"]))
  = Some "abc".
Proof.
  apply (token_of_spec ["room=7"] "abc=def" ["x=1"]) with (rest := "def").
  - repeat constructor.
  - repeat constructor.
  - reflexivity.
  - reflexivity.
Defined.

(** ** From a token to a profile *)

Section profile_lookup.
Variable AccessToken : string -> option nat.
Implicit Types (db : DB) (token : string).

Lemma Profile_get_by_user_Some db user_id profile :
  Profile_get_by_user db user_id = Some profile ->
  Profile_objects db !! profile.1 = Some profile.2
  /\ user profile.2 = Some user_id.
Proof.
  unfold Profile_get_by_user. intros Hfind.
  destruct (list_find _ _) as [[i kp]|] eqn:Hl; simplify_eq/=.
  apply list_find_Some in Hl as (Hlook & Huser & _).
  apply list_elem_of_lookup_2 in Hlook. destruct profile as [k p].
  by apply elem_of_map_to_list in Hlook.
Qed.

Lemma Profile_get_by_user_None db user_id :
  Profile_get_by_user db user_id = None
  <-> forall k p, Profile_objects db !! k = Some p -> user p <> Some user_id.
Proof.
  unfold Profile_get_by_user. rewrite fmap_None, list_find_None, Forall_forall.
  split.
  - intros Hall k p Hp. apply (Hall (k, p)). by apply elem_of_map_to_list.
  - intros Hall [k p] Hin. apply elem_of_map_to_list in Hin. by eapply Hall.
Qed.

(** X13: [get_profile_from_token] answers with a profile only if the
    token verifies, the user it names exists and the profile is a stored
    one linked to that very user; it answers with nothing when the token
    does not verify, when the user is gone, or when no profile is linked
    to the user; and whenever a token verifies for an existing user who
    has a profile, it does answer with a profile. *)
Theorem get_profile_from_token_spec db token :
  (forall profile,
     get_profile_from_token AccessToken db token = Some profile ->
     exists user_id,
       AccessToken token = Some user_id
       /\ user_id ∈ User_objects db
       /\ Profile_objects db !! profile.1 = Some profile.2
       /\ user profile.2 = Some user_id)
  /\ (AccessToken token = None ->
      get_profile_from_token AccessToken db token = None)
  /\ (forall user_id, AccessToken token = Some user_id ->
        user_id ∉ User_objects db ->
        get_profile_from_token AccessToken db token = None)
  /\ (forall user_id, AccessToken token = Some user_id ->
        (forall k p, Profile_objects db !! k = Some p -> user p <> Some user_id) ->
        get_profile_from_token AccessToken db token = None)
  /\ (forall user_id k p, AccessToken token = Some user_id ->
        user_id ∈ User_objects db ->
        Profile_objects db !! k = Some p -> user p = Some user_id ->
        is_Some (get_profile_from_token AccessToken db token)).
Proof.
  unfold get_profile_from_token, get_user_from_token. split_and!.
  - intros profile Hget.
    destruct (AccessToken token) as [user_id|]; simpl in Hget; [|done].
    case_decide; [|done]. exists user_id.
    apply Profile_get_by_user_Some in Hget. tauto.
  - by intros ->.
  - intros user_id -> Hno. simpl. by rewrite decide_False.
  - intros user_id -> Hno. simpl. case_decide; [|done].
    by apply Profile_get_by_user_None.
  - intros user_id k p -> Hin Hp Hu. simpl. rewrite decide_True by done.
    destruct (Profile_get_by_user db user_id) as [x|] eqn:Hget; [by eexists|].
    exfalso. eapply Profile_get_by_user_None; eauto.
Qed.
End profile_lookup.

Lemma get_profile_from_token_spec_witness :
  is_Some (get_profile_from_token sample_tokens sample_db "t1").
Proof.
  apply (get_profile_from_token_spec sample_tokens sample_db "t1")
    with (user_id := 1) (k := 1) (p := mkProfile (Some 1) true);
    first [reflexivity | (apply (bool_decide_unpack _); by vm_compute)].
Defined.

(** ** Who hears a broadcast *)

Section rooms.
Implicit Types (db : DB).

Lemma rooms_apart m m' : spectator_room m <> room_group_name m'.
Proof. unfold spectator_room, room_group_name. simpl. discriminate. Qed.

Lemma spectator_room_inj m m' : spectator_room m = spectator_room m' -> m = m'.
Proof.
  unfold spectator_room. intros Heq. apply (inj pretty).
  revert Heq. generalize (pretty m) (pretty m'). intros a b.
  assert (forall s, s +:+ a = s +:+ b -> a = b) as Hcancel.
  { induction s as [|c s IH]; [done|]. intros [= ?]. by apply IH. }
  apply Hcancel.
Qed.

Lemma connect_accepted_group AccessToken db m query_string profile group first :
  connect AccessToken db m query_string = accepted profile group first ->
  group = room_group_name m.
Proof.
  unfold connect.
  destruct (token_of query_string) as [[|a s]|]; [done| |done].
  destruct (get_profile_from_token _ _ _) as [p|]; [|done].
  destruct (is_biro p.2); [|done]. by intros [= _ <- _].
Qed.

Lemma group_send_answer {A} match_id type (wrap : A -> payload) extra fallback
    r g ty d :
  group_send g ty d ∈ answer match_id type wrap extra fallback r ->
  g = spectator_room match_id.
Proof.
  destruct r; simpl.
  - intros [[= -> _ _]|Hin]%elem_of_cons; [done|].
    by apply list_elem_of_singleton in Hin.
  - by intros Hin%list_elem_of_singleton.
Qed.

Lemma receive_group db now match_id text_data g ty d :
  group_send g ty d ∈ (receive db now match_id text_data).2 ->
  g = spectator_room match_id.
Proof.
  destruct text_data as [|e|action data]; simpl.
  - by intros Hin%list_elem_of_singleton.
  - by intros Hin%list_elem_of_singleton.
  - repeat case_decide; cbn [snd];
      try (by apply group_send_answer);
      try (by intros ?%elem_of_nil).
    + destruct (create_match_event _ _ _).2; simpl;
        [|by intros ?%elem_of_nil].
      intros [[= -> _ _]|Hin]%elem_of_cons; [done|].
      by apply list_elem_of_singleton in Hin.
    + destruct (create_frame _ _ _).2; simpl; [|by intros ?%elem_of_nil].
      by intros [= -> _ _]%list_elem_of_singleton.
    + destruct (end_frame _ _ _).2; simpl; [|by intros ?%elem_of_nil].
      by intros [= -> _ _]%list_elem_of_singleton.
    + destruct (update_match _ _ _).2; simpl; [|by intros ?%elem_of_nil].
      by intros [= -> _ _]%list_elem_of_singleton.
    + destruct (set_frame_ball_groups _ _ _ _ _).2; simpl.
      * intros [[= -> _ _]|Hin]%elem_of_cons; [done|].
        by apply list_elem_of_singleton in Hin.
      * by intros Hin%list_elem_of_singleton.
Qed.

(** X14: every broadcast that [receive] makes goes to the room
    [match_<id>] of the session's own match, which is the room the
    spectators of that match join and no spectator of another match.  A
    scorekeeper's connection joins [biro_match_<id>] instead, so no
    scorekeeper, the sender included, is in the room that is told. *)
Theorem broadcasts_reach_spectators_only db now match_id text_data g ty d :
  group_send g ty d ∈ (receive db now match_id text_data).2 ->
  g = (LiveMatchConsumer_connect db match_id).1
  /\ (forall db' m, (LiveMatchConsumer_connect db' m).1 = g -> m = match_id)
  /\ (forall AccessToken db' m query_string profile group first,
        connect AccessToken db' m query_string = accepted profile group first ->
        group <> g).
Proof.
  intros ->%receive_group. split_and!.
  - done.
  - intros db' m. simpl. apply spectator_room_inj.
  - intros AccessToken db' m query_string profile group first
      ->%connect_accepted_group Heq.
    by apply (rooms_apart match_id m).
Qed.
End rooms.

Lemma broadcasts_reach_spectators_only_witness :
  "match_1" = (LiveMatchConsumer_connect sample_db 1).1.
Proof.
  apply (broadcasts_reach_spectators_only sample_db 20 1
           (object (Some "undo_last_event")
              (only_frame_and_winner (Some 1) None))
           "match_1" "event_removed"
           (event_undone_data (mkEventUndone 2 (Some 1) "next_player"))).
  vm_compute. left.
Defined.

(** * The HTTP views *)

(** ** Creating a frame over HTTP *)

Section http_frames.
Implicit Types (db : DB).



End http_frames.

(** ** Creating an event over HTTP *)

Section http_events.
Implicit Types (db : DB).

Lemma MatchEvent_create_ext db now fields fields' :
  ef_eventType fields = ef_eventType fields' ->
  ef_details fields = ef_details fields' ->
  ef_turn_number fields = ef_turn_number fields' ->
  ef_player_id fields = ef_player_id fields' ->
  ef_ball_ids fields = ef_ball_ids fields' ->
  MatchEvent_create db now fields = MatchEvent_create db now fields'.
Proof.
  intros H1 H2 H3 H4 H5. unfold MatchEvent_create.
  by rewrite H1, H2, H3, H4, H5.
Qed.

(** X16: the HTTP view [biro_create_event] looks the frame and the
    player up before it inserts anything, so every answer other than 201
    leaves the store as it was and broadcasts nothing; in particular an
    unknown frame gives 404 and no stray event.  For an existing frame and
    a [player_id] other than 0 the store ends up exactly as after the
    corresponding [create_event] command, and the broadcast goes to the
    room of the frame's own match. *)
Theorem biro_create_event_spec db now request_user frame_id data :
  (status (biro_create_event db now request_user frame_id data).1.2 <> 201 ->
     (biro_create_event db now request_user frame_id data).1.1 = db
     /\ (biro_create_event db now request_user frame_id data).2 = [])
  /\ (biro_only db request_user = None ->
      Frame_objects db !! frame_id = None ->
      biro_create_event db now request_user frame_id data
      = (db, mkResponse 404 (error_body "Frame not found"), []))
  /\ (forall frame,
        biro_only db request_user = None ->
        Frame_objects db !! frame_id = Some frame ->
        frame_id <> 0 -> ef_player_id data <> Some 0 ->
        (biro_create_event db now request_user frame_id data).1.1
        = (create_match_event db now (for_frame frame_id data)).1
        /\ forall g ty d,
             group_send g ty d
             ∈ (biro_create_event db now request_user frame_id data).2 ->
             g = spectator_room (f_match frame)).
Proof.
  split_and!.
  - unfold biro_create_event.
    destruct (biro_only db request_user); [done|].
    destruct (Frame_objects db !! frame_id) as [frame|]; [|done]. cbv zeta.
    destruct (truthy_id (ef_player_id data)) as [p|];
      [destruct (Profile_objects db !! p)|];
      try done; destruct (MatchEvent_create _ _ _) as [[db1 event]|]; done.
  - intros Hb Hf. unfold biro_create_event. by rewrite Hb, Hf.
  - intros frame Hb Hf Hnz Hp. unfold biro_create_event. rewrite Hb, Hf.
    cbv zeta.
    unfold create_match_event.
    destruct (ef_player_id data) as [[|p']|] eqn:Hpid; [done| |].
    + cbn [truthy_id]. set (p := S p') in *.
      destruct (Profile_objects db !! p) as [prof|] eqn:Hprof.
      * rewrite (MatchEvent_create_ext db now (for_frame frame_id data)
                   (mkEventFields (ef_eventType data) (ef_details data)
                      (ef_turn_number data) (Some p) (ef_ball_ids data) None))
          by done.
        destruct (MatchEvent_create _ _ _) as [[db1 event]|] eqn:Hc.
        -- destruct (MatchEvent_create_inv _ _ _ _ _ Hc) as (_ & Hfr & _).
           simpl. destruct frame_id as [|k]; [done|]. simpl.
           rewrite Hfr, Hf. split; [done|].
           by intros g ty d [= -> _ _]%list_elem_of_singleton.
        -- split; [done|]. by intros g ty d ?%elem_of_nil.
      * assert (MatchEvent_create db now (for_frame frame_id data) = None)
          as ->.
        { unfold MatchEvent_create. simpl.
          destruct (ef_eventType data); simpl; [|done].
          rewrite Hpid. simpl. rewrite Hprof.
          rewrite decide_False; [done|]. intros [[? ?]|?]; done. }
        split; [done|]. by intros g ty d ?%elem_of_nil.
    + rewrite (MatchEvent_create_ext db now (for_frame frame_id data)
                 (mkEventFields (ef_eventType data) (ef_details data)
                    (ef_turn_number data) None (ef_ball_ids data) None))
        by done.
      destruct (MatchEvent_create _ _ _) as [[db1 event]|] eqn:Hc.
      * destruct (MatchEvent_create_inv _ _ _ _ _ Hc) as (_ & Hfr & _).
        simpl. destruct frame_id as [|k]; [done|]. simpl.
        rewrite Hfr, Hf. split; [done|].
        by intros g ty d [= -> _ _]%list_elem_of_singleton.
      * split; [done|]. by intros g ty d ?%elem_of_nil.
Qed.
End http_events.

(** ** A function view behind its decorators *)

Section manage_match.
Variable AccessToken : string -> option nat.
Implicit Types (db : DB) (r : request).

Lemma biro_manage_match_unfold match_id db r :
  biro_manage_match AccessToken match_id db r
  = if String.prefix "Bearer " (default "" (authorization r)) then
      match AccessToken (bearer_token r) with
      | None =>
          (db, mkResponse 401 (error_detail_body "Invalid or expired token"))
      | Some user_id =>
          if decide (user_id ∈ User_objects db) then
            match Profile_get_by_user db user_id with
            | None => (db, mkResponse 404 (error_body "Profile not found"))
            | Some profile =>
                if is_biro profile.2 then
                  if decide (http_method r ∈ [POST; PUT; DELETE])
                  then biro_manage_match_body match_id db (with_user user_id r)
                  else (db, mkResponse 405 empty_body)
                else (db, mkResponse 403
                            (error_body "Biro permission required"))
            end
          else (db, mkResponse 404 (error_body "User not found"))
      end
    else (db, mkResponse 401
                (error_body "Missing or invalid Authorization header")).
Proof. reflexivity. Qed.


(** X18: a DELETE that passes the checks of [biro_manage_match] removes
    the match and, by the cascade, every frame of the match, and nothing
    else: the frames of other matches stay, and so does every event, so
    that an event only frames of this match held is left attached to no
    frame.  Afterwards the scorekeeper's consumer finds no match: a
    [create_frame] for it is refused. *)
Theorem biro_manage_match_delete match_id db r user_id profile (match_ : Match) :
  String.prefix "Bearer " (default "" (authorization r)) = true ->
  AccessToken (bearer_token r) = Some user_id ->
  user_id ∈ User_objects db ->
  Profile_get_by_user db user_id = Some profile ->
  is_biro profile.2 = true ->
  http_method r = DELETE ->
  Match_objects db !! match_id = Some match_ ->
  exists db',
    biro_manage_match AccessToken match_id db r
    = (db', mkResponse 200 (message_body "Deleted"))
    /\ Match_objects db' !! match_id = None
    /\ (forall j f, Frame_objects db' !! j = Some f
                    <-> Frame_objects db !! j = Some f /\ f_match f <> match_id)
    /\ MatchEvent_objects db' = MatchEvent_objects db
    /\ (forall i,
          (forall j f, Frame_objects db !! j = Some f -> i ∈ events f ->
                       f_match f = match_id) ->
          forall j f, Frame_objects db' !! j = Some f -> i ∉ events f)
    /\ (forall n, create_frame db' match_id n = (db', None)).
Proof.
  intros Hpre Htok Hin Hprof Hbiro Hmeth Hm.
  exists (Match_delete match_id db).
  assert (forall j f, Frame_objects (Match_delete match_id db) !! j = Some f
                      <-> Frame_objects db !! j = Some f /\ f_match f <> match_id)
    as Hframes.
  { intros j f. simpl. by rewrite map_lookup_filter_Some. }
  split_and!.
  - rewrite biro_manage_match_unfold, Hpre, Htok, decide_True, Hprof, Hbiro
      by done.
    rewrite decide_True by (rewrite Hmeth; set_solver).
    unfold biro_manage_match_body. simpl. by rewrite Hm, Hmeth.
  - simpl. apply lookup_delete_eq.
  - done.
  - done.
  - intros i Honly j f [Hf Hne]%Hframes Hi. apply Hne. by eapply Honly.
  - intros n. unfold create_frame. simpl. by rewrite lookup_delete_eq.
Qed.
End manage_match.


Lemma biro_create_event_spec_witness :
  biro_create_event sample_db 20 1 7 sample_pot
  = (sample_db, mkResponse 404 (error_body "Frame not found"), []).
Proof.
  apply (biro_create_event_spec sample_db 20 1 7 sample_pot); reflexivity.
Defined.


Lemma biro_manage_match_delete_witness :
  exists db',
    biro_manage_match sample_tokens 1 sample_db sample_delete
    = (db', mkResponse 200 (message_body "Deleted"))
    /\ MatchEvent_objects db' = MatchEvent_objects sample_db.
Proof.
  destruct (biro_manage_match_delete sample_tokens 1 sample_db sample_delete 1
              (1, mkProfile (Some 1) true) (mkMatch 1 2 None 5))
    as (db' & Hrun & _ & _ & Hev & _);
    first [reflexivity
          | (apply (bool_decide_unpack _); by vm_compute)
          | by exists db' ].
Defined.

(** ** An error reply means nothing happened *)

Section error_replies.
Implicit Types (db : DB).







End error_replies.


(** * Further properties of the projections *)

Section projections.
Implicit Types (evs turn : list MatchEvent) (e : MatchEvent).

Lemma turns_of_structure evs :
  concat (turns_of evs) = evs
  /\ Forall closed_turn (turns_of evs)
  /\ Forall opens_turn (tail (turns_of evs)).
Proof.
  unfold turns_of.
  destruct (turns_inv_foldl evs) as [Hc Hcl Hcur Hop Hopd].
  destruct (foldl turn_step ([], []) evs) as [turns cur]; simpl in *.
  destruct cur as [|c cur]; simpl in *.
  - by rewrite app_nil_r in Hc.
  - split_and!.
    + by rewrite concat_app; simpl; rewrite app_nil_r.
    + apply Forall_app; split; [done|]. by repeat constructor.
    + destruct (decide (turns = [])) as [->|Hne]; simpl; [done|].
      rewrite tail_snoc by done. apply Forall_app; split; auto.
Qed.

Lemma count_next_player_app evs evs' :
  count_next_player (evs ++ evs')
  = count_next_player evs + count_next_player evs'.
Proof. unfold count_next_player. by rewrite filter_app, length_app. Qed.

Lemma count_next_player_none evs :
  Forall (fun e => eventType e <> NEXT_PLAYER) evs -> count_next_player evs = 0.
Proof.
  unfold count_next_player. induction 1 as [|e evs He _ IH]; [done|].
  by rewrite filter_cons_False.
Qed.

Lemma count_closed_turn turn :
  closed_turn turn ->
  count_next_player turn + starts_mid_turn turn = 1.
Proof.
  intros [Hne Htail]. destruct turn as [|e rest]; [done|]. simpl in *.
  change (e :: rest) with ([e] ++ rest).
  rewrite count_next_player_app, (count_next_player_none rest) by done.
  unfold count_next_player. rewrite filter_cons. by case_decide.
Qed.

Lemma count_opened_turns (turns : list (list MatchEvent)) :
  Forall closed_turn turns -> Forall opens_turn turns ->
  count_next_player (concat turns) = length turns.
Proof.
  induction turns as [|turn turns IH]; [done|].
  intros [Hcl Hcls]%Forall_cons [Hop Hops]%Forall_cons. simpl.
  rewrite count_next_player_app, IH by done.
  pose proof (count_closed_turn turn Hcl) as Hone.
  destruct Hop as (e & Hhead & Hnp). destruct turn as [|e' rest]; [done|].
  simpl in *. simplify_eq. rewrite decide_True in Hone by done. lia.
Qed.

(** X20: the number of turns [return_events_as_turns] makes of a
    sequence is the number of its [next_player] events, plus one if the
    sequence starts with an event of another type; in particular an empty
    sequence has no turn, and a [next_player] event at the very start opens
    the first turn without leaving an empty one before it. *)
Theorem turns_count evs :
  length (turns_of evs) = count_next_player evs + starts_mid_turn evs.
Proof.
  destruct (turns_of_structure evs) as (Hc & Hcl & Hop).
  destruct (turns_of evs) as [|turn turns]; simpl in *.
  - by subst.
  - apply Forall_cons in Hcl as [Hturn Hcl].
    pose proof (count_closed_turn turn Hturn) as Hone.
    pose proof (count_opened_turns turns Hcl Hop) as Hrest.
    rewrite <- Hc, count_next_player_app, Hrest.
    assert (starts_mid_turn (turn ++ concat turns) = starts_mid_turn turn)
      as ->.
    { destruct Hturn as [Hne _]. by destruct turn. }
    lia.
Qed.

Lemma potted_nil_filter (l : list string) :
  filter (fun b => b ∉ @nil string) l = l.
Proof.
  induction l as [|x l IH]; [done|].
  rewrite filter_cons_True by apply not_elem_of_nil. by rewrite IH.
Qed.

(** X21: the balls on the table depend only on which ids the
    [balls_potted] events name, not on the order or the number of those
    events: sequences that are rearrangements of one another give the same
    table, an event repeated changes nothing, and neither does an event
    that pots only ids that are not on the table (the cue ball, an unknown
    id, a ball already potted).  The table never lists a ball twice. *)
Theorem balls_on_table_order_free :
  (forall evs evs', evs ≡ₚ evs' -> balls_on_table_of evs = balls_on_table_of evs')
  /\ (forall evs e,
        balls_on_table_of (evs ++ [e; e]) = balls_on_table_of (evs ++ [e]))
  /\ (forall evs e,
        (forall b, b ∈ truthy_ball_ids e -> b ∉ balls_on_table_of evs) ->
        balls_on_table_of (evs ++ [e]) = balls_on_table_of evs)
  /\ (forall evs, NoDup (balls_on_table_of evs)).
Proof.
  split_and!.
  - intros evs evs' Hperm. rewrite (balls_on_table_closed evs).
    rewrite (balls_on_table_closed evs'). apply list_filter_iff. intros b.
    rewrite !elem_of_potted. by setoid_rewrite Hperm.
  - intros evs e. rewrite (balls_on_table_closed (evs ++ [e; e])).
    rewrite (balls_on_table_closed (evs ++ [e])). apply list_filter_iff.
    intros b. rewrite !elem_of_potted.
    split; intros Hno (x & Hx & Hrest); apply Hno; exists x;
      (split; [|done]); revert Hx; rewrite !elem_of_app, !elem_of_cons;
      rewrite elem_of_nil; tauto.
  - intros evs e Hoff. rewrite balls_on_table_snoc.
    rewrite <- (potted_nil_filter (balls_on_table_of evs)) at 2.
    induction (balls_on_table_of evs) as [|x l IH]; [done|].
    assert (x ∉ potted [e]) as Hx.
    { rewrite elem_of_potted. intros (e' & ->%list_elem_of_singleton & _ & Hb).
      apply (Hoff x Hb). left. }
    rewrite !filter_cons_True; [|apply not_elem_of_nil|done].
    f_equal. rewrite potted_nil_filter. rewrite potted_nil_filter in IH.
    apply IH. intros b Hb Hin. apply (Hoff b Hb). by right.
  - intros evs. rewrite balls_on_table_closed. apply NoDup_filter.
    apply (bool_decide_unpack _). by vm_compute.
Qed.
End projections.

Lemma balls_on_table_order_free_witness :
  balls_on_table_of
    ([mkMatchEvent "balls_potted" 10 None None None (Some ["1"])]
     ++ [mkMatchEvent "balls_potted" 11 None None None (Some ["cue"; "1"])])
  = balls_on_table_of
      [mkMatchEvent "balls_potted" 10 None None None (Some ["1"])].
Proof.
  apply (proj1 (proj2 (proj2 balls_on_table_order_free))).
  intros b Hb. vm_compute in Hb.
  repeat (apply elem_of_cons in Hb as [->|Hb]);
    [apply (bool_decide_unpack _); by vm_compute..|].
  by apply elem_of_nil in Hb.
Defined.
